(** * A shallow embedding of the cuckoo filter of [cuckoofilter.go]

    The Go package keeps a slice of four-slot buckets of one-byte
    fingerprints.  Unsigned machine integers ([uint]) are integers of [Z]
    with the wrap-around at 64 bits written out, slices and arrays are lists
    read with [!!] and written with [<[ _ := _ ]>], an index out of range
    (a Go panic) is [None], and the process-wide random source is a stream
    of raw draws handed to the operations that consume it. *)

From Stdlib Require Import ZArith Lia.
From Stdlib.Strings Require Import Byte.
From stdpp Require Import base option list numbers.

(** ** Machine integers *)

Definition uintSize : Z := 64.

(** Truncation of an integer to [uint]. *)
Definition wrap (x : Z) : Z := (x mod 2 ^ uintSize)%Z.

(** [bits.TrailingZeros] of Go's standard library: the number of trailing
    zero bits of [x], and [uintSize] when [x] is 0.  [fuel] bounds the scan
    and [k] is the bit under inspection. *)
Fixpoint trailingZerosFrom (fuel : nat) (x k : Z) : Z :=
  match fuel with
  | O => k
  | S fuel' => if Z.testbit x k then k else trailingZerosFrom fuel' x (k + 1)
  end.

Definition TrailingZeros (x : Z) : Z := trailingZerosFrom 64 x 0.

(** ** Fingerprints and buckets *)

(** Modelled from the spec: the declarations of [fingerprint], [bucket],
    [bucketSize] and the empty fingerprint are not in [cuckoofilter.go].  A
    fingerprint is one byte, value 0 marks an empty slot, and a bucket is an
    array of exactly four fingerprint slots. *)
Abbreviation fingerprint := byte.
Abbreviation bucket := (list byte).

Definition nullFp : fingerprint := x00.
Definition bucketSize : nat := 4.

#[global] Instance byte_eq_dec : EqDecision byte := Byte.byte_eq_dec.

Module Bucket.

(** Modelled from the spec: [bucket.insert] is missing from the sources.
    It finds the first empty slot and stores [fp] there; it fails when no
    slot is empty. *)
Definition insert (b : bucket) (fp : fingerprint) : bucket * bool :=
  match list_find (λ tfp, tfp = nullFp) b with
  | Some (i, _) => (<[i := fp]> b, true)
  | None => (b, false)
  end.

(** Modelled from the spec: [bucket.getFingerprintIndex] is missing from
    the sources.  It returns the position of a slot holding [fp], and -1
    when there is none. *)
Definition getFingerprintIndex (b : bucket) (fp : fingerprint) : Z :=
  match list_find (λ tfp, tfp = fp) b with
  | Some (i, _) => Z.of_nat i
  | None => (-1)%Z
  end.

(** Modelled from the spec: [bucket.delete] is missing from the sources.
    When [fp] is present one slot holding it is overwritten with the empty
    fingerprint; otherwise the bucket is left alone and the call fails. *)
Definition delete (b : bucket) (fp : fingerprint) : bucket * bool :=
  match list_find (λ tfp, tfp = fp) b with
  | Some (i, _) => (<[i := nullFp]> b, true)
  | None => (b, false)
  end.

(** Modelled from the spec: [bucket.reset] is missing from the sources.
    It clears every slot. *)
Definition reset (b : bucket) : bucket := (λ _, nullFp) <$> b.

End Bucket.

(** ** The hash layer *)

(** Modelled from the spec: [getIndexAndFingerprint], [getAltIndex] and
    [getNextPow2] are missing from the sources, and the digest they use
    comes from a third-party package.  The digest is kept abstract: a hash
    layer gives, for an input, the fingerprint taken from one slice of its
    digest and the index bits taken from another slice, and for a
    fingerprint its secondary hash. *)
Class HashLayer := {
  hashFingerprint : list byte → fingerprint;
  hashIndex : list byte → Z;
  altHash : fingerprint → Z
}.

(** Modelled from the spec: the fingerprint derived from an input is never
    the empty fingerprint. *)
Class HashLayerSpec (H : HashLayer) : Prop := {
  hashFingerprint_nonnull : ∀ data, hashFingerprint data ≠ nullFp
}.

(** The all-ones mask that reduces a value to [[0, 2^bucketPow)]. *)
Definition mask (bucketPow : Z) : Z := Z.ones bucketPow.

(** Modelled from the spec: the primary index is a slice of the digest
    masked to [[0, 2^bucketPow)]; the fingerprint comes from another slice. *)
Definition getIndexAndFingerprint `{HashLayer} (data : list byte) (bucketPow : Z)
  : Z * fingerprint :=
  (Z.land (hashIndex data) (mask bucketPow), hashFingerprint data).

(** Modelled from the spec: the secondary hash of the fingerprint alone,
    XORed with the index and masked to [[0, 2^bucketPow)]. *)
Definition getAltIndex `{HashLayer} (fp : fingerprint) (i : Z) (bucketPow : Z) : Z :=
  Z.land (Z.lxor i (altHash fp)) (mask bucketPow).

(** Modelled from the spec: the smallest power of two that is at least [n],
    as the [uint] the caller receives. *)
Definition getNextPow2 (n : Z) : Z := wrap (2 ^ Z.log2_up n).

(** A small concrete hash layer, used to run the filter on explicit inputs:
    the fingerprint is the first byte of the input (1 when that byte is 0 or
    the input is empty), the index bits are the length of the input. *)
Definition sampleHash : HashLayer := {|
  hashFingerprint data :=
    match data with
    | b :: _ => if decide (b = nullFp) then x01 else b
    | [] => x01
    end;
  hashIndex data := Z.of_nat (length data);
  altHash fp := (Z.of_N (Byte.to_N fp) * 0x5bd1e995)%Z
|}.

(** ** The random source *)

(** [rand.Intn(n)] on the raw draw [r]: a value in [[0, n)]. *)
Definition Intn (r n : nat) : nat := r mod n.

(** The stream of draws that remains after one draw was consumed. *)
Definition rndTail (rnd : nat → nat) : nat → nat := λ k, rnd (S k).

(** [randi]: one of the two indices, chosen by one draw. *)
Definition randi (r : nat) (i1 i2 : Z) : Z :=
  if decide (Intn r 2 = 0) then i1 else i2.

(** ** The filter *)

(** The bound on the iterations of the eviction loop. *)
Definition maxCuckooCount : nat := 500.

(** The [Filter] struct: the buckets, the running count of stored
    fingerprints and the base-2 logarithm of the number of buckets. *)
Record Filter := mkFilter {
  Buckets : list bucket;
  Count : Z;
  BucketPow : Z
}.

(** [for i, x := range xs { body }] with the loop state threaded through;
    a panic in the body ends the loop. *)
Fixpoint forRange {A St : Type} (xs : list A) (i : nat)
    (body : nat → A → St → option St) (s : St) : option St :=
  match xs with
  | [] => Some s
  | x :: xs' => s' ← body i x s; forRange xs' (S i) body s'
  end.

(** [NewFilter]: the requested capacity is rounded up to a power of two and
    divided by the bucket size, with at least one bucket. *)
Definition NewFilter (capacity : Z) : Filter :=
  let capacity := (getNextPow2 capacity / Z.of_nat bucketSize)%Z in
  let capacity := if decide (capacity = 0%Z) then 1%Z else capacity in
  let buckets := replicate (Z.to_nat capacity) (replicate bucketSize nullFp) in
  {| Buckets := buckets; Count := 0; BucketPow := TrailingZeros capacity |}.

(** [CopyFilter]: a filter on a copy of the given buckets. *)
Definition CopyFilter (buckets : list bucket) (count bucketPow : Z) : Filter :=
  {| Buckets := buckets; Count := count; BucketPow := bucketPow |}.

Module Filter.
Section WithHash.
Context {H : HashLayer}.

(** [Lookup]: the primary bucket is searched first, then the alternate. *)
Definition Lookup (cf : Filter) (data : list byte) : option bool :=
  let '(i1, fp) := getIndexAndFingerprint data (BucketPow cf) in
  b1 ← Buckets cf !! Z.to_nat i1;
  if decide (Bucket.getFingerprintIndex b1 fp > -1)%Z then Some true
  else
    let i2 := getAltIndex fp i1 (BucketPow cf) in
    b2 ← Buckets cf !! Z.to_nat i2;
    Some (bool_decide (Bucket.getFingerprintIndex b2 fp > -1)%Z).

(** [Reset]: every bucket is cleared and the count is set to 0. *)
Definition Reset (cf : Filter) : Filter :=
  {| Buckets := Bucket.reset <$> Buckets cf; Count := 0; BucketPow := BucketPow cf |}.

(** [insert]: the bucket insert, and the count incremented when it
    succeeds. *)
Definition insert (cf : Filter) (fp : fingerprint) (i : Z) : option (Filter * bool) :=
  b ← Buckets cf !! Z.to_nat i;
  let '(b', ok) := Bucket.insert b fp in
  if ok then
    Some ({| Buckets := <[Z.to_nat i := b']> (Buckets cf);
             Count := wrap (Count cf + 1);
             BucketPow := BucketPow cf |}, true)
  else Some (cf, false).

(** [cf.Buckets[i][j] = fp]. *)
Definition setSlot (cf : Filter) (i : Z) (j : nat) (fp : fingerprint) : Filter :=
  {| Buckets := alter (λ b, <[j := fp]> b) (Z.to_nat i) (Buckets cf);
     Count := Count cf;
     BucketPow := BucketPow cf |}.

(** The loop of [reinsert], run for [iters] iterations.  Besides the
    filter and the result it gives the last values of the loop's local
    variables [fp] and [i]: on failure, the fingerprint that was taken out
    of its slot and found no room, and the bucket it was tried for. *)
Fixpoint reinsertLoop (iters : nat) (rnd : nat → nat) (cf : Filter)
    (fp : fingerprint) (i : Z) : option (Filter * (fingerprint * Z) * bool) :=
  match iters with
  | O => Some (cf, (fp, i), false)
  | S iters' =>
      let j := Intn (rnd 0) bucketSize in
      let oldfp := fp in
      b ← Buckets cf !! Z.to_nat i;
      fp ← (b : bucket) !! j;
      let cf := setSlot cf i j oldfp in
      let i := getAltIndex fp i (BucketPow cf) in
      '(cf, ok) ← insert cf fp i;
      if (ok : bool) then Some (cf, (fp, i), true)
      else reinsertLoop iters' (rndTail rnd) cf fp i
  end.

(** [reinsert]: the loop, bounded by [maxCuckooCount]. *)
Definition reinsert (rnd : nat → nat) (cf : Filter) (fp : fingerprint) (i : Z)
  : option (Filter * bool) :=
  '(cf, _, ok) ← reinsertLoop maxCuckooCount rnd cf fp i;
  Some (cf, ok).

(** [Insert]: the primary bucket, then the alternate bucket, then the
    eviction loop from one of the two, chosen by the first draw; the loop
    consumes the draws that follow. *)
Definition Insert (rnd : nat → nat) (cf : Filter) (data : list byte)
  : option (Filter * bool) :=
  let '(i1, fp) := getIndexAndFingerprint data (BucketPow cf) in
  '(cf1, ok) ← insert cf fp i1;
  if (ok : bool) then Some (cf1, true)
  else
    let i2 := getAltIndex fp i1 (BucketPow cf1) in
    '(cf2, ok) ← insert cf1 fp i2;
    if (ok : bool) then Some (cf2, true)
    else reinsert (rndTail rnd) cf2 fp (randi (rnd 0) i1 i2).

(** [InsertUnique]: nothing is done when [Lookup] finds the input. *)
Definition InsertUnique (rnd : nat → nat) (cf : Filter) (data : list byte)
  : option (Filter * bool) :=
  found ← Lookup cf data;
  if (found : bool) then Some (cf, false) else Insert rnd cf data.

(** [delete]: the bucket delete, and the count decremented, unless it is 0,
    when it succeeds. *)
Definition delete (cf : Filter) (fp : fingerprint) (i : Z) : option (Filter * bool) :=
  b ← Buckets cf !! Z.to_nat i;
  let '(b', ok) := Bucket.delete b fp in
  if ok then
    Some ({| Buckets := <[Z.to_nat i := b']> (Buckets cf);
             Count := if decide (Count cf > 0)%Z then wrap (Count cf - 1) else Count cf;
             BucketPow := BucketPow cf |}, true)
  else Some (cf, false).

(** [Delete]: the primary bucket is tried first, then the alternate. *)
Definition Delete (cf : Filter) (data : list byte) : option (Filter * bool) :=
  let '(i1, fp) := getIndexAndFingerprint data (BucketPow cf) in
  '(cf1, ok) ← delete cf fp i1;
  if (ok : bool) then Some (cf1, true)
  else
    let i2 := getAltIndex fp i1 (BucketPow cf1) in
    delete cf1 fp i2.

(** [CountEntries]: the running count. *)
Definition CountEntries (cf : Filter) : Z := Count cf.

(** [Encode]: a zeroed byte slice of four bytes per bucket, into which the
    two nested loops write every fingerprint at [i * len(b) + j]. *)
Definition Encode (cf : Filter) : option (list byte) :=
  let bytes := replicate (length (Buckets cf) * bucketSize) x00 in
  forRange (Buckets cf) 0 (λ i b bytes,
    forRange b 0 (λ j f bytes,
      let index := i * length b + j in
      if decide (index < length bytes) then Some (<[index := f]> bytes) else None)
    bytes) bytes.

End WithHash.
End Filter.

(** The two errors of [Decode]: the length is not a multiple of the bucket
    size (the message gives that size and the length), or the input is
    empty. *)
Inductive DecodeError :=
  | ErrNotMultiple (size len : nat)
  | ErrEmpty.

(** [Decode]: the length check comes first, then the emptiness check; the
    two nested loops copy every non-zero byte into its slot and count it. *)
Definition Decode (bytes : list byte) : option (DecodeError + Filter) :=
  if decide (length bytes mod bucketSize ≠ 0) then
    Some (inl (ErrNotMultiple bucketSize (length bytes)))
  else if decide (length bytes = 0) then Some (inl ErrEmpty)
  else
    let buckets := replicate (length bytes / 4) (replicate bucketSize nullFp) in
    st ← forRange buckets 0 (λ i b st,
            forRange b 0 (λ j _ '(buckets, count),
              let index := i * length b + j in
              x ← (bytes : list byte) !! index;
              if decide (x ≠ x00) then
                if decide (i < length buckets) then
                  Some (alter (λ b, <[j := x]> b) i buckets, wrap (count + 1))
                else None
              else Some (buckets, count))
            st) (buckets, 0%Z);
    Some (inr {| Buckets := st.1; Count := st.2;
                 BucketPow := TrailingZeros (Z.of_nat (length st.1)) |}).

(** ** Notions used to state the properties *)

(** The non-empty fingerprints held by a list of buckets, in bucket order
    then slot order. *)
Definition storedFps (bs : list bucket) : list fingerprint :=
  filter (λ fp, fp ≠ nullFp) (concat bs).

(** The number of slots that hold a non-empty fingerprint. *)
Definition occupied (bs : list bucket) : nat := length (storedFps bs).

(** The fingerprint in slot [j] of bucket [i]. *)
Definition slot (bs : list bucket) (i j : nat) : option fingerprint :=
  bs !! i ≫= λ b : bucket, b !! j.

(** Bucket [i] holds [fp] in one of its slots. *)
Definition holds (bs : list bucket) (i : Z) (fp : fingerprint) : Prop :=
  ∃ j, slot bs (Z.to_nat i) j = Some fp.

(** What every filter built by [NewFilter] and changed by the operations
    satisfies. *)
Record filterInv (cf : Filter) : Prop := {
  inv_pow : (0 ≤ BucketPow cf ≤ 61)%Z;
  inv_len : Z.of_nat (length (Buckets cf)) = (2 ^ BucketPow cf)%Z;
  inv_slots : Forall (λ b : bucket, length b = bucketSize) (Buckets cf);
  inv_count : Count cf = Z.of_nat (occupied (Buckets cf))
}.

(** The calls that change a filter. *)
Inductive op :=
  | OpInsert (rnd : nat → nat) (data : list byte)
  | OpInsertUnique (rnd : nat → nat) (data : list byte)
  | OpDelete (data : list byte)
  | OpReset.

(** One call, with its boolean result ([Reset] returns nothing; [true]
    stands for it). *)
Definition runOp `{HashLayer} (cf : Filter) (o : op) : option (Filter * bool) :=
  match o with
  | OpInsert rnd data => Filter.Insert rnd cf data
  | OpInsertUnique rnd data => Filter.InsertUnique rnd cf data
  | OpDelete data => Filter.Delete cf data
  | OpReset => Some (Filter.Reset cf, true)
  end.

(** The filter after a sequence of calls. *)
Fixpoint runOps `{HashLayer} (cf : Filter) (os : list op) : option Filter :=
  match os with
  | [] => Some cf
  | o :: os' => r ← runOp cf o; runOps r.1 os'
  end.

(** The filters reachable from [NewFilter] by calls of [Insert],
    [InsertUnique], [Delete] and [Reset], whatever the random draws. *)
Inductive reachable `{HashLayer} : Filter → Prop :=
  | reachable_new capacity : reachable (NewFilter capacity)
  | reachable_step cf o cf' r :
      reachable cf → runOp cf o = Some (cf', r) → reachable cf'.

(** The filter [Decode] builds from a well-sized input. *)
Definition decoded (bytes : list byte) : Filter :=
  {| Buckets := reshape (replicate (length bytes / 4) bucketSize) bytes;
     Count := wrap (Z.of_nat (length (filter (λ x, x ≠ x00) bytes)));
     BucketPow := TrailingZeros (Z.of_nat (length bytes / 4)) |}.

(** The value written into slot [j] of bucket [i]. *)
Definition writeSlot (bs : list bucket) (i j : nat) (fp : fingerprint) : list bucket :=
  alter (λ b : bucket, <[j := fp]> b) i bs.

(** No slot of bucket [i] is empty. *)
Definition full (bs : list bucket) (i : Z) : Prop :=
  ∃ b : bucket, bs !! Z.to_nat i = Some b ∧ Forall (λ fp, fp ≠ nullFp) b.

(** An input is stored: one of its two candidate buckets holds its
    fingerprint. *)
Definition storedIn `{HashLayer} (cf : Filter) (data : list byte) : Prop :=
  let '(i1, fp) := getIndexAndFingerprint data (BucketPow cf) in
  holds (Buckets cf) i1 fp ∨ holds (Buckets cf) (getAltIndex fp i1 (BucketPow cf)) fp.

(** The fingerprint [Insert] is left holding when the eviction loop gives
    up, with the bucket it was last tried for: the last values of the local
    variables [fp] and [i] of [reinsert].  [None] when [Insert] succeeds. *)
Definition evicted `{HashLayer} (rnd : nat → nat) (cf : Filter) (data : list byte)
  : option (fingerprint * Z) :=
  let '(i1, fp) := getIndexAndFingerprint data (BucketPow cf) in
  match Filter.insert cf fp i1 with
  | Some (cf1, false) =>
      let i2 := getAltIndex fp i1 (BucketPow cf1) in
      match Filter.insert cf1 fp i2 with
      | Some (cf2, false) =>
          match Filter.reinsertLoop maxCuckooCount (rndTail rnd) cf2 fp
                  (randi (rnd 0) i1 i2) with
          | Some (_, hand, false) => Some hand
          | _ => None
          end
      | _ => None
      end
  | _ => None
  end.

(** A fingerprint in hand, bound for bucket [hand.2], is a copy of the
    fingerprint of [data]: the same byte, and the bucket is one of the two
    candidate buckets of [data]. *)
Definition copyOf `{HashLayer} (bucketPow : Z) (data : list byte)
    (hand : fingerprint * Z) : Prop :=
  let '(i1, fp) := getIndexAndFingerprint data bucketPow in
  hand.1 = fp ∧ (hand.2 = i1 ∨ hand.2 = getAltIndex fp i1 bucketPow).

(** Two inputs share a home: they have the same fingerprint and the primary
    bucket of the second is a candidate bucket of the first. *)
Definition sameHome `{HashLayer} (bucketPow : Z) (data data' : list byte) : Prop :=
  copyOf bucketPow data
    ((getIndexAndFingerprint data' bucketPow).2, (getIndexAndFingerprint data' bucketPow).1).

(** A call that cannot take the fingerprint of [data] out of the filter: an
    insertion that does not end with a copy of it left in hand, or the
    deletion of an input that does not share its home. *)
Definition sparesOp `{HashLayer} (data : list byte) (cf : Filter) (o : op) : Prop :=
  match o with
  | OpInsert rnd data' =>
      ∀ hand, evicted rnd cf data' = Some hand → ¬ copyOf (BucketPow cf) data hand
  | OpInsertUnique rnd data' =>
      Filter.Lookup cf data' = Some false →
      ∀ hand, evicted rnd cf data' = Some hand → ¬ copyOf (BucketPow cf) data hand
  | OpDelete data' => ¬ sameHome (BucketPow cf) data data'
  | OpReset => False
  end.

(** Every call of a sequence, run from [cf], spares [data]. *)
Fixpoint spares `{HashLayer} (data : list byte) (cf : Filter) (os : list op) : Prop :=
  match os with
  | [] => True
  | o :: os' =>
      sparesOp data cf o ∧ ∀ cf' r, runOp cf o = Some (cf', r) → spares data cf' os'
  end.

(** A fingerprint [t] together with its two candidate buckets: each bucket
    is the alternate of the other. *)
Definition homePair `{HashLayer} (bucketPow : Z) (t : fingerprint) (a1 a2 : Z) : Prop :=
  t ≠ nullFp ∧ (0 ≤ a1)%Z ∧ (0 ≤ a2)%Z ∧
  getAltIndex t a1 bucketPow = a2 ∧ getAltIndex t a2 bucketPow = a1.

(** A copy of [t] is accounted for: one of its two candidate buckets holds
    it, or it is the fingerprint in hand and bound for one of them. *)
Definition tracked (t : fingerprint) (a1 a2 : Z) (bs : list bucket)
    (hand : option (fingerprint * Z)) : Prop :=
  holds bs a1 t ∨ holds bs a2 t ∨ ∃ i, hand = Some (t, i) ∧ (i = a1 ∨ i = a2).

(** The state of the eviction loop between two iterations, started from the
    filter [cf0] with [fp0] in hand, bound for bucket [i0]: the filter is
    well formed, the fingerprint in hand is not empty and the bucket it is
    bound for is in range and full; the count has not moved; the stored
    fingerprints together with the one in hand are those of the start; and
    every copy accounted for at the start still is. *)
Definition evictInv `{HashLayer} (cf0 : Filter) (fp0 : fingerprint) (i0 : Z)
    (cf : Filter) (fp : fingerprint) (i : Z) : Prop :=
  filterInv cf ∧ BucketPow cf = BucketPow cf0 ∧ fp ≠ nullFp ∧
  (0 ≤ i < 2 ^ BucketPow cf)%Z ∧ full (Buckets cf) i ∧
  Count cf = Count cf0 ∧
  fp :: storedFps (Buckets cf) ≡ₚ fp0 :: storedFps (Buckets cf0) ∧
  ∀ t a1 a2, homePair (BucketPow cf0) t a1 a2 →
    tracked t a1 a2 (Buckets cf0) (Some (fp0, i0)) →
    tracked t a1 a2 (Buckets cf) (Some (fp, i)).

(** The state after the fingerprint in hand found a free slot. *)
Definition evictDone `{HashLayer} (cf0 : Filter) (fp0 : fingerprint) (i0 : Z)
    (cf : Filter) : Prop :=
  filterInv cf ∧ BucketPow cf = BucketPow cf0 ∧
  Count cf = (Count cf0 + 1)%Z ∧
  storedFps (Buckets cf) ≡ₚ fp0 :: storedFps (Buckets cf0) ∧
  ∀ t a1 a2, homePair (BucketPow cf0) t a1 a2 →
    tracked t a1 a2 (Buckets cf0) (Some (fp0, i0)) →
    tracked t a1 a2 (Buckets cf) None.

(** ** The shape the operations rely on *)

(** Every index below [2 ^ BucketPow] is a bucket, and every bucket has
    four slots.  Filters built by [NewFilter] have exactly [2 ^ BucketPow]
    buckets; filters returned by [Decode] may have more. *)
Definition shaped (cf : Filter) : Prop :=
  (0 ≤ BucketPow cf)%Z ∧
  (2 ^ BucketPow cf ≤ Z.of_nat (length (Buckets cf)))%Z ∧
  Forall (λ b : bucket, length b = bucketSize) (Buckets cf).

(** [cf] is shaped like [cf0]: as many buckets and the same [BucketPow]. *)
Definition shapedLike (cf0 cf : Filter) : Prop :=
  shaped cf ∧ BucketPow cf = BucketPow cf0 ∧
  length (Buckets cf) = length (Buckets cf0).

(** ** A concrete run *)

(** Four insertions into the one-bucket filter [NewFilter 0], under the
    sample hash layer, fill its only bucket. *)
Definition fillOps : list op :=
  [OpInsert (λ _, 0) [x05]; OpInsert (λ _, 0) [x06];
   OpInsert (λ _, 0) [x07]; OpInsert (λ _, 0) [x08]].

(** The filter those insertions build. *)
Definition fullFilter : Filter :=
  {| Buckets := [[x05; x06; x07; x08]]; Count := 4; BucketPow := 0 |}.

(** Draws that make the eviction loop take slot 0 in its first iteration
    and slot 1 in all the others (draw 0 is the one [randi] consumes). *)
Definition churnDraws : nat → nat := λ k, if decide (k = 1) then 0 else 1.

(** * Properties *)

(** ** Machine integers *)

Lemma wrap_small x : (0 ≤ x < 2 ^ 64)%Z → wrap x = x.
Proof. intros Hx. unfold wrap, uintSize. by rewrite Z.mod_small. Qed.

Lemma trailingZerosFrom_first fuel x k k' :
  (k ≤ k' < k + Z.of_nat fuel)%Z →
  Z.testbit x k' = true →
  (∀ j, (k ≤ j < k')%Z → Z.testbit x j = false) →
  trailingZerosFrom fuel x k = k'.
Proof.
  revert k. induction fuel as [|fuel IH]; intros k Hk Hset Hclear; simpl.
  - lia.
  - destruct (Z.testbit x k) eqn:Hbit.
    + destruct (decide (k = k')) as [->|Hne]; [done|].
      rewrite Hclear in Hbit by lia. done.
    + apply IH; [|done|intros j Hj; apply Hclear; lia].
      destruct (decide (k = k')) as [->|Hne]; [congruence|lia].
Qed.

Lemma TrailingZeros_pow2 p : (0 ≤ p < 64)%Z → TrailingZeros (2 ^ p) = p.
Proof.
  intros Hp. unfold TrailingZeros. apply trailingZerosFrom_first.
  - lia.
  - apply Z.pow2_bits_true. lia.
  - intros j Hj. apply Z.pow2_bits_false. lia.
Qed.

Lemma trailingZerosFrom_range fuel x k :
  (k ≤ trailingZerosFrom fuel x k ≤ k + Z.of_nat fuel)%Z.
Proof.
  revert k. induction fuel as [|fuel IH]; intros k; simpl; [lia|].
  destruct (Z.testbit x k); [lia|]. specialize (IH (k + 1)%Z). lia.
Qed.

Lemma TrailingZeros_range x : (0 ≤ TrailingZeros x ≤ 64)%Z.
Proof. unfold TrailingZeros. pose proof (trailingZerosFrom_range 64 x 0). lia. Qed.

(** ** The hash layer *)

Lemma land_mask_small i p : (0 ≤ p)%Z → (0 ≤ i < 2 ^ p)%Z → Z.land i (mask p) = i.
Proof. intros Hp Hi. unfold mask. rewrite Z.land_ones by done. by apply Z.mod_small. Qed.

Lemma land_mask_range x p : (0 ≤ p)%Z → (0 ≤ Z.land x (mask p) < 2 ^ p)%Z.
Proof.
  intros Hp. unfold mask. rewrite Z.land_ones by done.
  apply Z.mod_pos_bound. by apply Z.pow_pos_nonneg.
Qed.

Section HashLayerFacts.
Context {H : HashLayer}.

Lemma getAltIndex_range fp i p : (0 ≤ p)%Z → (0 ≤ getAltIndex fp i p < 2 ^ p)%Z.
Proof. apply land_mask_range. Qed.

Lemma getAltIndex_twice fp i p :
  getAltIndex fp (getAltIndex fp i p) p = Z.land i (mask p).
Proof.
  unfold getAltIndex. apply Z.bits_inj'. intros n Hn.
  rewrite !Z.land_spec, !Z.lxor_spec, !Z.land_spec, !Z.lxor_spec.
  destruct (Z.testbit i n), (Z.testbit (altHash fp) n), (Z.testbit (mask p) n); done.
Qed.

Lemma getAltIndex_back fp i p :
  (0 ≤ p)%Z → (0 ≤ i < 2 ^ p)%Z → getAltIndex fp (getAltIndex fp i p) p = i.
Proof. intros Hp Hi. rewrite getAltIndex_twice. by apply land_mask_small. Qed.

(** C3. Alternate-index symmetry: for every fingerprint, every bucket
    power and every index [i] in [[0, 2^bucketPow)], taking the alternate
    index of the alternate index of [i] gives back [i]. *)
Theorem getAltIndex_involutive (fp : fingerprint) (bucketPow i : Z) :
  (0 ≤ bucketPow)%Z → (0 ≤ i < 2 ^ bucketPow)%Z →
  getAltIndex fp (getAltIndex fp i bucketPow) bucketPow = i.
Proof.
  intros Hp Hi. unfold getAltIndex. apply Z.bits_inj'. intros n Hn.
  rewrite !Z.land_spec, !Z.lxor_spec, !Z.land_spec, !Z.lxor_spec.
  unfold mask. rewrite Z.testbit_ones_nonneg by lia.
  destruct (Z.ltb_spec n bucketPow) as [Hlt|Hge].
  - rewrite !andb_true_r. by destruct (Z.testbit i n), (Z.testbit (altHash fp) n).
  - rewrite !andb_false_r. symmetry.
    destruct (decide (i = 0%Z)) as [->|Hne]; [apply Z.bits_0|].
    apply Z.bits_above_log2; [lia|].
    assert (Z.log2 i < bucketPow)%Z by (apply Z.log2_lt_pow2; lia). lia.
Qed.

Lemma getIndexAndFingerprint_range data p :
  (0 ≤ p)%Z → (0 ≤ (getIndexAndFingerprint data p).1 < 2 ^ p)%Z.
Proof. apply land_mask_range. Qed.

End HashLayerFacts.

Lemma getAltIndex_involutive_witness :
  getAltIndex (H := sampleHash) x2a (getAltIndex (H := sampleHash) x2a 5 3) 3 = 5%Z.
Proof. apply (getAltIndex_involutive (H := sampleHash) x2a 3 5); lia. Defined.

(** ** Construction *)

Lemma getNextPow2_cases n :
  ∃ k, (0 ≤ k)%Z ∧
    ((k < 64)%Z ∧ getNextPow2 n = (2 ^ k)%Z ∨ (64 ≤ k)%Z ∧ getNextPow2 n = 0%Z).
Proof.
  exists (Z.log2_up n). split; [apply Z.log2_up_nonneg|].
  unfold getNextPow2, wrap, uintSize.
  destruct (decide (Z.log2_up n < 64)%Z) as [Hlt|Hge].
  - left. split; [done|]. apply Z.mod_small. split.
    + apply Z.pow_nonneg. lia.
    + apply Z.pow_lt_mono_r; [lia|lia|done].
  - right. split; [lia|].
    replace (Z.log2_up n) with ((Z.log2_up n - 64) + 64)%Z by lia.
    rewrite Z.pow_add_r by lia. apply Z.mod_mul. lia.
Qed.

(** The shape of a new filter: [2 ^ p] empty buckets for some [p] that is
    at most 61, and [BucketPow] is that [p]. *)
Lemma NewFilter_shape capacity :
  ∃ p, (0 ≤ p ≤ 61)%Z ∧
    NewFilter capacity =
      {| Buckets := replicate (Z.to_nat (2 ^ p)) (replicate bucketSize nullFp);
         Count := 0; BucketPow := p |}.
Proof.
  unfold NewFilter.
  destruct (getNextPow2_cases capacity) as (k & Hk & [[Hlt ->]| [Hge ->]]).
  - destruct (decide (k < 2)%Z) as [Hsmall|Hbig].
    + exists 0%Z. split; [lia|].
      assert (2 ^ k / Z.of_nat bucketSize = 0)%Z as ->.
      { apply Z.div_small. split; [apply Z.pow_nonneg; lia|].
        change (Z.of_nat bucketSize) with (2 ^ 2)%Z.
        apply Z.pow_lt_mono_r; lia. }
      done.
    + exists (k - 2)%Z. split; [lia|].
      assert (2 ^ k / Z.of_nat bucketSize = 2 ^ (k - 2))%Z as ->.
      { change (Z.of_nat bucketSize) with (2 ^ 2)%Z.
        symmetry. apply Z.pow_sub_r; lia. }
      assert (0 < 2 ^ (k - 2))%Z by (apply Z.pow_pos_nonneg; lia).
      rewrite decide_False by lia.
      by rewrite TrailingZeros_pow2 by lia.
  - exists 0%Z. split; [lia|]. done.
Qed.

(** C9. Capacity rounding: [NewFilter 0] and [NewFilter 1] have exactly one
    bucket, [NewFilter 1000000] has [2 ^ 18 = 262144] buckets, and for every
    requested capacity the number of buckets is a power of two, at least 1,
    with [BucketPow] its base-2 logarithm. *)
Theorem NewFilter_capacity_rounding :
  length (Buckets (NewFilter 0)) = 1 ∧
  length (Buckets (NewFilter 1)) = 1 ∧
  Z.of_nat (length (Buckets (NewFilter 1000000))) = (2 ^ 18)%Z ∧
  (2 ^ 18 = 262144)%Z ∧
  ∀ capacity,
    (0 ≤ BucketPow (NewFilter capacity))%Z ∧
    Z.of_nat (length (Buckets (NewFilter capacity))) = (2 ^ BucketPow (NewFilter capacity))%Z ∧
    1 ≤ length (Buckets (NewFilter capacity)) ∧
    BucketPow (NewFilter capacity) = Z.log2 (Z.of_nat (length (Buckets (NewFilter capacity)))).
Proof.
  split; [done|]. split; [done|]. split.
  { unfold NewFilter. cbn [Buckets]. rewrite length_replicate. by vm_compute. }
  split; [done|].
  intros capacity. destruct (NewFilter_shape capacity) as (p & Hp & ->).
  cbn [Buckets BucketPow]. rewrite length_replicate.
  assert (0 < 2 ^ p)%Z by (apply Z.pow_pos_nonneg; lia).
  rewrite Z2Nat.id by lia. repeat split; [lia| lia |].
  by rewrite Z.log2_pow2 by lia.
Qed.

(** ** Loops over slices *)

(** The invariant rule for [forRange]: an invariant that holds at the start
    and is carried by every iteration holds at the end, and the loop does
    not panic. *)
Lemma forRange_inv {A St : Type} (Inv : nat → St → Prop) (xs : list A) i0
    (body : nat → A → St → option St) s :
  Inv i0 s →
  (∀ k x s, xs !! k = Some x → Inv (i0 + k) s →
     ∃ s', body (i0 + k) x s = Some s' ∧ Inv (i0 + S k) s') →
  ∃ s', forRange xs i0 body s = Some s' ∧ Inv (i0 + length xs) s'.
Proof.
  revert i0 s. induction xs as [|x xs IH]; intros i0 s Hinv Hstep; simpl.
  - exists s. by rewrite Nat.add_0_r.
  - destruct (Hstep 0 x s) as (s' & Hb & Hinv'); [done|by rewrite Nat.add_0_r|].
    rewrite Nat.add_0_r in Hb. rewrite Hb. simpl.
    destruct (IH (S i0) s') as (s'' & Hrun & Hinv'').
    + replace (S i0) with (i0 + 1) by lia. done.
    + intros k y t Hk Ht.
      replace (S i0 + k) with (i0 + S k) by lia.
      replace (S i0 + S k) with (i0 + S (S k)) by lia.
      apply (Hstep (S k)); [done|].
      by replace (i0 + S k) with (S i0 + k) by lia.
    + exists s''. split; [done|].
      by replace (i0 + S (length xs)) with (S i0 + length xs) by lia.
Qed.

(** Writing the next element of [l] over the padding that follows the
    first [idx] elements of [l]. *)
Lemma insert_take_padding {A} (l : list A) idx total x d :
  l !! idx = Some x → idx < total →
  <[idx := x]> (take idx l ++ replicate (total - idx) d)
  = take (S idx) l ++ replicate (total - S idx) d.
Proof.
  intros Hx Hlt. pose proof (lookup_lt_Some _ _ _ Hx) as Hlen.
  rewrite (take_S_r _ _ _ Hx).
  replace (total - idx) with (S (total - S idx)) by lia.
  rewrite insert_app_r_alt by (rewrite length_take; lia).
  rewrite length_take. replace (idx - idx `min` length l) with 0 by lia.
  simpl. by rewrite <- app_assoc.
Qed.

(** A write into slot [j] of chunk [i] of a list cut into chunks of [m]. *)
Lemma reshape_alter_insert {A} (l : list A) n m i j x :
  j < m →
  alter (λ b, <[j := x]> b) i (reshape (replicate n m) l)
  = reshape (replicate n m) (<[i * m + j := x]> l).
Proof.
  intros Hj. revert i l. induction n as [|n IH]; intros i l; [done|].
  destruct i as [|i]; simpl.
  - by rewrite take_insert_lt, drop_insert_lt by lia.
  - rewrite take_insert_ge, drop_insert_ge by lia.
    replace (m + i * m + j - m) with (i * m + j) by lia.
    f_equal. apply IH.
Qed.

Lemma lookup_concat_uniform {A} (bs : list (list A)) m i j :
  Forall (λ b, length b = m) bs → j < m →
  concat bs !! (i * m + j) = bs !! i ≫= λ b, b !! j.
Proof.
  intros Hall Hj. revert i. induction Hall as [|b bs Hb Hall IH]; intros i; [done|].
  destruct i as [|i]; simpl.
  - by rewrite lookup_app_l by lia.
  - rewrite lookup_app_r by lia. rewrite <- IH. f_equal. lia.
Qed.

Lemma length_concat_uniform {A} (bs : list (list A)) m :
  Forall (λ b, length b = m) bs → length (concat bs) = length bs * m.
Proof.
  induction 1 as [|b bs Hb Hall IH]; [done|].
  simpl. rewrite length_app. lia.
Qed.

Lemma reshape_concat_uniform {A} (bs : list (list A)) m :
  Forall (λ b, length b = m) bs →
  reshape (replicate (length bs) m) (concat bs) = bs.
Proof.
  induction 1 as [|b bs Hb Hall IH]; [done|].
  simpl. rewrite take_app_length' by done. rewrite drop_app_length' by done.
  by rewrite IH.
Qed.

Lemma concat_reshape_uniform {A} (l : list A) n m :
  length l = n * m → concat (reshape (replicate n m) l) = l.
Proof.
  revert l. induction n as [|n IH]; intros l Hlen; simpl.
  - by destruct l.
  - rewrite IH by (rewrite length_drop; lia). apply take_drop.
Qed.


(** ** Encode and Decode *)

(** [Encode] lays the buckets out one after the other. *)
Lemma Encode_concat (cf : Filter) :
  Forall (λ b : bucket, length b = bucketSize) (Buckets cf) →
  Filter.Encode cf = Some (concat (Buckets cf)).
Proof.
  intros Hall. unfold Filter.Encode. cbn zeta.
  set (C := concat (Buckets cf)). set (n := length (Buckets cf)).
  assert (length C = n * bucketSize) as HlenC by (by apply length_concat_uniform).
  pose (Inv := λ (idx : nat) (bytes : list byte),
    bytes = take idx C ++ replicate (n * bucketSize - idx) x00).
  destruct (forRange_inv (λ i, Inv (i * bucketSize)) (Buckets cf) 0
    (λ i (b : bucket) bytes,
      forRange b 0 (λ j f bytes,
        let index := i * length b + j in
        if decide (index < length bytes) then Some (<[index := f]> bytes) else None)
      bytes)
    (replicate (n * bucketSize) x00)) as (bytes & Hrun & Hfin).
  - unfold Inv. cbn [Nat.mul take app]. by rewrite Nat.sub_0_r.
  - intros i b bytes Hb Hinv. cbn [Nat.add] in *.
    assert (length b = bucketSize) as Hlenb
      by (by eapply (Forall_lookup_1 _ _ _ _ Hall Hb)).
    pose proof (lookup_lt_Some _ _ _ Hb) as Hi. fold n in Hi.
    destruct (forRange_inv (λ j, Inv (i * bucketSize + j)) b 0
      (λ j f bytes,
        let index := i * length b + j in
        if decide (index < length bytes) then Some (<[index := f]> bytes) else None)
      bytes) as (bytes' & Hrun' & Hfin').
    + cbn [Nat.add]. by rewrite Nat.add_0_r.
    + intros j f bytes0 Hf Hinv0. cbn [Nat.add] in *. cbn zeta.
      pose proof (lookup_lt_Some _ _ _ Hf) as Hj.
      rewrite Hlenb in *. unfold Inv in Hinv0. subst bytes0.
      assert (i * bucketSize + j < n * bucketSize) as Hidx.
      { unfold bucketSize in *. lia. }
      rewrite decide_True; last first.
      { rewrite length_app, length_take, length_replicate. lia. }
      eexists. split; [done|]. unfold Inv.
      replace (i * bucketSize + S j) with (S (i * bucketSize + j)) by lia.
      apply insert_take_padding; [|done].
      unfold C. rewrite (lookup_concat_uniform _ bucketSize) by done.
      by rewrite Hb.
    + exists bytes'. split; [done|]. cbn [Nat.add] in Hfin'.
      rewrite Hlenb in Hfin'.
      by replace (S i * bucketSize) with (i * bucketSize + bucketSize) by lia.
  - etrans; [exact Hrun|]. f_equal. cbn [Nat.add] in Hfin. unfold Inv in Hfin. fold n in Hfin.
    rewrite Hfin, Nat.sub_diag. simpl. rewrite app_nil_r.
    apply take_ge. lia.
Qed.


Lemma wrap_wrap_succ a : wrap (wrap a + 1) = wrap (a + 1).
Proof. unfold wrap, uintSize. by rewrite Z.add_mod_idemp_l. Qed.

Lemma filter_snoc_length (l : list byte) x :
  Z.of_nat (length (filter (λ y, y ≠ x00) (l ++ [x])))
  = (Z.of_nat (length (filter (λ y, y ≠ x00) l)) + (if decide (x ≠ x00) then 1 else 0))%Z.
Proof.
  rewrite list.filter_app, length_app. cbn [filter list_filter].
  destruct (decide (x ≠ x00)); simpl; lia.
Qed.

Lemma reshape_replicate {A} n m (x : A) :
  reshape (replicate n m) (replicate (n * m) x) = replicate n (replicate m x).
Proof.
  induction n as [|n IH]; [done|].
  cbn [replicate reshape Nat.mul]. rewrite replicate_add.
  rewrite take_app_length' by (by rewrite length_replicate).
  rewrite drop_app_length' by (by rewrite length_replicate).
  by rewrite IH.
Qed.

(** [Decode] on an input whose length is a positive multiple of four: the
    two loops never panic and rebuild the buckets chunk by chunk. *)
Lemma Decode_ok (bytes : list byte) :
  length bytes mod bucketSize = 0 → length bytes ≠ 0 →
  Decode bytes = Some (inr (decoded bytes)).
Proof.
  intros Hmod Hne. unfold Decode.
  rewrite decide_False by (intros Hn; by apply Hn).
  rewrite decide_False by done.
  set (n := length bytes / 4).
  assert (length bytes = n * bucketSize) as Hlen.
  { unfold n, bucketSize in *. pose proof (Nat.div_mod_eq (length bytes) 4). lia. }
  pose (Inv := λ (idx : nat) (st : list bucket * Z),
    st.1 = reshape (replicate n bucketSize)
             (take idx bytes ++ replicate (n * bucketSize - idx) x00) ∧
    st.2 = wrap (Z.of_nat (length (filter (λ y, y ≠ x00) (take idx bytes))))).
  destruct (forRange_inv (λ i, Inv (i * bucketSize))
    (replicate n (replicate bucketSize nullFp)) 0
    (λ i (b : bucket) st,
       forRange b 0 (λ j _ '(buckets, count),
         let index := i * length b + j in
         x ← (bytes : list byte) !! index;
         if decide (x ≠ x00) then
           if decide (i < length buckets) then
             Some (alter (λ b, <[j := x]> b) i buckets, wrap (count + 1))
           else None
         else Some (buckets, count))
       st)
    (replicate n (replicate bucketSize nullFp), 0%Z)) as (st & Hrun & Hfin).
  - change (0 * bucketSize) with 0. split; cbn [fst snd]; rewrite take_0; [|done].
    by rewrite app_nil_l, Nat.sub_0_r, reshape_replicate.
  - intros i b st Hb Hinv. cbn [Nat.add] in *.
    apply lookup_replicate in Hb as [-> Hi].
    rewrite length_replicate.
    destruct (forRange_inv (λ j, Inv (i * bucketSize + j))
      (replicate bucketSize nullFp) 0
      (λ j (_ : fingerprint) '(buckets, count),
         let index := i * bucketSize + j in
         x ← (bytes : list byte) !! index;
         if decide (x ≠ x00) then
           if decide (i < length buckets) then
             Some (alter (λ b, <[j := x]> b) i buckets, wrap (count + 1))
           else None
         else Some (buckets, count))
      st) as (st' & Hrun' & Hfin').
    + cbn [Nat.add]. by rewrite Nat.add_0_r.
    + intros j f [buckets count] Hf [Hbs Hcnt]. cbn [Nat.add fst snd] in *. cbn zeta.
      apply lookup_replicate in Hf as [_ Hj].
      assert (i * bucketSize + j < n * bucketSize) as Hidx.
      { unfold bucketSize in *. lia. }
      destruct (lookup_lt_is_Some_2 bytes (i * bucketSize + j)) as [x Hx]; [lia|].
      rewrite Hx. cbn [mbind option_bind].
      replace (i * bucketSize + S j) with (S (i * bucketSize + j)) by lia.
      pose proof (insert_take_padding bytes _ (n * bucketSize) x x00 Hx Hidx) as Hpad.
      unfold Inv. cbn [fst snd]. rewrite (take_S_r _ _ _ Hx).
      destruct (decide (x ≠ x00)) as [Hxne|Hxeq].
      * rewrite decide_True; last first.
        { rewrite Hbs, length_reshape, length_replicate. done. }
        eexists. split; [done|]. cbn [fst snd]. split.
        -- rewrite Hbs, reshape_alter_insert by done. rewrite Hpad.
           by rewrite (take_S_r _ _ _ Hx).
        -- rewrite Hcnt, wrap_wrap_succ, filter_snoc_length.
           by rewrite decide_True by done.
      * eexists. split; [done|]. cbn [fst snd]. split.
        -- rewrite Hbs. f_equal. rewrite <- (take_S_r _ _ _ Hx), <- Hpad.
           symmetry. apply list_insert_id.
           rewrite lookup_app_r by (rewrite length_take; lia).
           apply lookup_replicate. split; [|rewrite length_take; lia].
           apply dec_stable in Hxeq. done.
        -- rewrite Hcnt, filter_snoc_length.
           rewrite decide_False by done. f_equal. lia.
    + exists st'. split; [exact Hrun'|].
      by replace (S i * bucketSize) with (i * bucketSize + bucketSize) by lia.
  - cbn [Nat.add] in Hfin. rewrite length_replicate in Hfin.
    destruct Hfin as [Hbs Hcnt].
    rewrite Nat.sub_diag, app_nil_r, take_ge in Hbs by lia.
    rewrite take_ge in Hcnt by lia.
    cbv zeta. apply bind_Some. exists st. split; [exact Hrun|].
    unfold decoded. fold n.
    by rewrite Hbs, Hcnt, length_reshape, length_replicate.
Qed.


Lemma Decode_buckets_length (bytes : list byte) :
  length (Buckets (decoded bytes)) = length bytes / 4.
Proof. unfold decoded. cbn [Buckets]. by rewrite length_reshape, length_replicate. Qed.

(** C8. Decode validation: [Decode] fails exactly when the input is empty
    or its length is not a multiple of 4; the empty input gives the
    empty-input error, a length that is not a multiple of 4 (such as the
    three bytes 1, 2, 3) gives the size-mismatch error, and every non-empty
    input whose length is a multiple of 4 is decoded. *)
Theorem Decode_validation :
  Decode [] = Some (inl ErrEmpty) ∧
  Decode [x01; x02; x03] = Some (inl (ErrNotMultiple 4 3)) ∧
  ∀ bytes : list byte,
    (length bytes mod 4 ≠ 0 →
       Decode bytes = Some (inl (ErrNotMultiple 4 (length bytes)))) ∧
    (bytes ≠ [] → length bytes mod 4 = 0 → ∃ cf, Decode bytes = Some (inr cf)) ∧
    ((∃ e, Decode bytes = Some (inl e)) ↔ bytes = [] ∨ length bytes mod 4 ≠ 0).
Proof.
  split; [done|]. split; [done|]. intros bytes.
  assert (length bytes mod 4 ≠ 0 →
          Decode bytes = Some (inl (ErrNotMultiple 4 (length bytes)))) as Hbad.
  { intros Hmod. unfold Decode. by rewrite decide_True by done. }
  assert (bytes ≠ [] → length bytes mod 4 = 0 →
          Decode bytes = Some (inr (decoded bytes))) as Hgood.
  { intros Hne Hmod. apply Decode_ok; [done|]. by destruct bytes. }
  split; [done|]. split; [eauto|]. split.
  - intros [e He].
    destruct (decide (bytes = [])) as [|Hne]; [by left|].
    destruct (decide (length bytes mod 4 = 0)) as [Hmod|]; [|by right].
    rewrite Hgood in He by done. done.
  - intros [->|Hmod]; [by exists ErrEmpty|]. rewrite Hbad by done. eauto.
Qed.

(** C10. [Decode] accepts layouts that [NewFilter] never builds: every
    non-empty input whose length is a multiple of 4 is decoded into
    [length / 4] buckets with no check that this number is a power of two,
    and [BucketPow] is its number of trailing zero bits; so when the number
    of buckets is not a power of two (24 bytes give 6 buckets and
    [BucketPow] 1) the filter breaks the relation
    [2 ^ BucketPow = length Buckets] that every new filter satisfies. *)
Theorem Decode_accepts_non_power_of_two :
  (∀ bytes : list byte, bytes ≠ [] → length bytes mod 4 = 0 →
     ∃ cf, Decode bytes = Some (inr cf) ∧
       length (Buckets cf) = length bytes / 4 ∧
       BucketPow cf = TrailingZeros (Z.of_nat (length bytes / 4)) ∧
       ((¬ ∃ p, (0 ≤ p)%Z ∧ Z.of_nat (length bytes / 4) = (2 ^ p)%Z) →
        (2 ^ BucketPow cf)%Z ≠ Z.of_nat (length (Buckets cf)))) ∧
  (∀ bytes : list byte, length bytes = 24 →
     ∃ cf, Decode bytes = Some (inr cf) ∧
       length (Buckets cf) = 6 ∧ BucketPow cf = 1%Z ∧
       (2 ^ BucketPow cf)%Z ≠ Z.of_nat (length (Buckets cf))) ∧
  (∀ capacity,
     (2 ^ BucketPow (NewFilter capacity))%Z
     = Z.of_nat (length (Buckets (NewFilter capacity)))).
Proof.
  split; [|split].
  - intros bytes Hne Hmod. exists (decoded bytes).
    split; [apply Decode_ok; [done|by destruct bytes]|].
    rewrite Decode_buckets_length. split; [done|]. split; [done|].
    intros Hnot Heq. apply Hnot. eexists. split; [|by rewrite <- Heq].
    apply TrailingZeros_range.
  - intros bytes Hlen. exists (decoded bytes).
    split; [apply Decode_ok; by rewrite Hlen|].
    rewrite Decode_buckets_length. unfold decoded. cbn [BucketPow].
    rewrite Hlen. by vm_compute.
  - intros capacity. destruct (NewFilter_shape capacity) as (p & Hp & ->).
    cbn [Buckets BucketPow]. rewrite length_replicate.
    assert (0 < 2 ^ p)%Z by (apply Z.pow_pos_nonneg; lia). lia.
Qed.

Lemma Decode_accepts_non_power_of_two_witness :
  ∃ cf, Decode (replicate 12 x07) = Some (inr cf) ∧
    length (Buckets cf) = 3 ∧ (2 ^ BucketPow cf)%Z ≠ Z.of_nat (length (Buckets cf)).
Proof.
  destruct Decode_accepts_non_power_of_two as (Hall & _ & _).
  destruct (Hall (replicate 12 x07)) as (cf & Hdec & Hlen & Hpow & Hne); [done|done|].
  exists cf. split; [done|]. split; [done|]. apply Hne.
  intros (p & Hp & Heq). change (Z.of_nat (length (replicate 12 x07) / 4)) with 3%Z in Heq.
  destruct (decide (p < 2)%Z).
  - assert (p = 0 ∨ p = 1)%Z as [-> | ->] by lia; done.
  - assert (2 ^ 2 ≤ 2 ^ p)%Z by (apply Z.pow_le_mono_r; lia). lia.
Defined.


(** ** Buckets *)

Lemma Bucket_insert_spec (b : bucket) fp :
  (∃ j, b !! j = Some nullFp ∧ Bucket.insert b fp = (<[j := fp]> b, true)) ∨
  (Forall (λ tfp, tfp ≠ nullFp) b ∧ Bucket.insert b fp = (b, false)).
Proof.
  unfold Bucket.insert.
  destruct (list_find (λ tfp, tfp = nullFp) b) as [[j x]|] eqn:Hfind.
  - apply list_find_Some in Hfind as (Hj & -> & _). left. eauto.
  - apply list_find_None in Hfind. right. done.
Qed.

Lemma Bucket_delete_spec (b : bucket) fp :
  (∃ j, b !! j = Some fp ∧ Bucket.delete b fp = (<[j := nullFp]> b, true)) ∨
  ((∀ j, b !! j ≠ Some fp) ∧ Bucket.delete b fp = (b, false)).
Proof.
  unfold Bucket.delete.
  destruct (list_find (λ tfp, tfp = fp) b) as [[j x]|] eqn:Hfind.
  - apply list_find_Some in Hfind as (Hj & -> & _). left. eauto.
  - apply list_find_None in Hfind. right. split; [|done].
    intros j Hj. by eapply (Forall_lookup_1 _ _ _ _ Hfind Hj).
Qed.

Lemma Bucket_getFingerprintIndex_spec (b : bucket) fp :
  (Bucket.getFingerprintIndex b fp > -1)%Z ↔ ∃ j, b !! j = Some fp.
Proof.
  unfold Bucket.getFingerprintIndex.
  destruct (list_find (λ tfp, tfp = fp) b) as [[j x]|] eqn:Hfind.
  - apply list_find_Some in Hfind as (Hj & -> & _). split; [eauto|lia].
  - apply list_find_None in Hfind. split; [lia|].
    intros [j Hj]. by destruct (Forall_lookup_1 _ _ _ _ Hfind Hj).
Qed.

(** ** Writing one slot *)

Lemma insert_writeSlot (bs : list bucket) i j (b : bucket) fp :
  bs !! i = Some b → <[i := <[j := fp]> b]> bs = writeSlot bs i j fp.
Proof.
  intros Hb. unfold writeSlot. apply list_eq. intros k.
  destruct (decide (k = i)) as [->|Hne].
  - rewrite list_lookup_alter_eq, Hb, list_lookup_insert_eq; [done|].
    by eapply lookup_lt_Some.
  - by rewrite list_lookup_alter_ne, list_lookup_insert_ne.
Qed.

Lemma length_writeSlot bs i j fp : length (writeSlot bs i j fp) = length bs.
Proof. apply length_alter. Qed.

Lemma Forall_length_writeSlot bs i j fp m :
  Forall (λ b : bucket, length b = m) bs →
  Forall (λ b : bucket, length b = m) (writeSlot bs i j fp).
Proof.
  intros Hall. apply Forall_alter; [done|].
  intros b _ Hb. by rewrite length_insert.
Qed.

Lemma slot_writeSlot bs i j fp i' j' :
  slot (writeSlot bs i j fp) i' j' =
    if decide (i' = i ∧ j' = j) then (λ _, fp) <$> slot bs i j else slot bs i' j'.
Proof.
  unfold slot, writeSlot. destruct (decide (i' = i)) as [->|Hne].
  - rewrite list_lookup_alter_eq. destruct (bs !! i) as [b|]; simpl.
    + destruct (decide (j' = j)) as [->|Hnej].
      * rewrite decide_True by done.
        destruct (b !! j) eqn:Hj; simpl.
        -- apply list_lookup_insert_eq. by eapply lookup_lt_Some.
        -- rewrite list_insert_ge; [done|]. by apply lookup_ge_None.
      * rewrite decide_False by (intros [_ ?]; done).
        by apply list_lookup_insert_ne.
    + by destruct (decide _).
  - rewrite decide_False by (intros [? _]; done).
    by rewrite list_lookup_alter_ne.
Qed.

Lemma perm_exchange {A} (X Y P Q : list A) : X ++ P ++ Y ++ Q ≡ₚ Y ++ P ++ X ++ Q.
Proof.
  rewrite (Permutation_app_swap_app X P). rewrite (Permutation_app_swap_app Y P).
  apply Permutation_app_head. apply Permutation_app_swap_app.
Qed.

(** A write replaces, among the stored fingerprints, the old contents of
    the slot by the new one. *)
Lemma storedFps_writeSlot bs i j old new :
  slot bs i j = Some old →
  filter (λ fp, fp ≠ nullFp) [old] ++ storedFps (writeSlot bs i j new)
  ≡ₚ filter (λ fp, fp ≠ nullFp) [new] ++ storedFps bs.
Proof.
  unfold slot. intros Hslot.
  destruct (bs !! i) as [b|] eqn:Hb; [|done]. simpl in Hslot.
  rewrite <- (insert_writeSlot _ _ _ b) by done.
  pose proof (lookup_lt_Some _ _ _ Hb) as Hi.
  pose proof (lookup_lt_Some _ _ _ Hslot) as Hj.
  rewrite insert_take_drop by done.
  rewrite (insert_take_drop b) by done.
  unfold storedFps.
  rewrite <- (take_drop_middle bs i b) at 3 by done.
  rewrite <- (take_drop_middle b j old) at 3 by done.
  rewrite !concat_app, !concat_cons, !list.filter_app.
  change (new :: drop (S j) b) with ([new] ++ drop (S j) b).
  change (old :: drop (S j) b) with ([old] ++ drop (S j) b).
  rewrite !list.filter_app, <- !(assoc_L (++)).
  set (X := filter _ [old]). set (Y := filter _ [new]).
  rewrite !(assoc_L (++) (filter _ (concat (take i bs)))).
  apply perm_exchange.
Qed.

Lemma storedFps_length_bound bs m :
  Forall (λ b : bucket, length b = m) bs → occupied bs ≤ length bs * m.
Proof.
  intros Hall. unfold occupied, storedFps.
  etrans; [apply length_filter|]. by rewrite (length_concat_uniform _ m).
Qed.


Lemma occupied_writeSlot bs i j old new :
  slot bs i j = Some old →
  (Z.of_nat (occupied (writeSlot bs i j new))
   = Z.of_nat (occupied bs)
     + (if decide (new ≠ nullFp) then 1 else 0)
     - (if decide (old ≠ nullFp) then 1 else 0))%Z.
Proof.
  intros Hslot. pose proof (storedFps_writeSlot bs i j old new Hslot) as Hperm.
  apply Permutation_length in Hperm. rewrite !length_app in Hperm.
  unfold occupied. cbn [filter list_filter] in Hperm.
  destruct (decide (new ≠ nullFp)), (decide (old ≠ nullFp)); simpl in Hperm; lia.
Qed.

(** ** The filter invariant *)

Lemma filterInv_count_bound cf :
  filterInv cf → (0 ≤ Count cf ≤ 2 ^ 63)%Z.
Proof.
  intros [Hpow Hlen Hslots Hcount].
  pose proof (storedFps_length_bound _ _ Hslots) as Hocc.
  assert (2 ^ BucketPow cf ≤ 2 ^ 61)%Z by (apply Z.pow_le_mono_r; lia).
  unfold bucketSize in Hocc. lia.
Qed.

Lemma filterInv_index cf i :
  filterInv cf → (0 ≤ i < 2 ^ BucketPow cf)%Z → Z.to_nat i < length (Buckets cf).
Proof. intros [_ Hlen _ _] Hi. lia. Qed.

Lemma filterInv_slot cf i j :
  filterInv cf → (0 ≤ i < 2 ^ BucketPow cf)%Z → j < bucketSize →
  is_Some (slot (Buckets cf) (Z.to_nat i) j).
Proof.
  intros Hinv Hi Hj. pose proof (filterInv_index _ _ Hinv Hi) as Hlt.
  destruct (lookup_lt_is_Some_2 _ _ Hlt) as [b Hb].
  unfold slot. rewrite Hb. simpl. apply lookup_lt_is_Some_2.
  by rewrite (Forall_lookup_1 _ _ _ _ (inv_slots _ Hinv) Hb).
Qed.

(** A write keeps the invariant when the count follows the change. *)
Lemma filterInv_write cf i j old new cf' :
  filterInv cf → slot (Buckets cf) i j = Some old →
  Buckets cf' = writeSlot (Buckets cf) i j new →
  BucketPow cf' = BucketPow cf →
  (Count cf' = Count cf + (if decide (new ≠ nullFp) then 1 else 0)
                        - (if decide (old ≠ nullFp) then 1 else 0))%Z →
  filterInv cf'.
Proof.
  intros [Hpow Hlen Hslots Hcount] Hslot Hbs Hbp Hcnt. split.
  - by rewrite Hbp.
  - by rewrite Hbs, Hbp, length_writeSlot.
  - rewrite Hbs. by apply Forall_length_writeSlot.
  - rewrite Hbs, (occupied_writeSlot _ _ _ old) by done. lia.
Qed.

Lemma NewFilter_inv capacity : filterInv (NewFilter capacity).
Proof.
  destruct (NewFilter_shape capacity) as (p & Hp & ->).
  assert (0 < 2 ^ p)%Z by (apply Z.pow_pos_nonneg; lia).
  split; cbn [Buckets Count BucketPow].
  - done.
  - rewrite length_replicate. lia.
  - apply Forall_replicate. by rewrite length_replicate.
  - unfold occupied, storedFps.
    assert (∀ n, filter (λ fp, fp ≠ nullFp)
              (concat (replicate n (replicate bucketSize nullFp))) = []) as ->; [|done].
    induction n as [|n IH]; [done|].
    cbn [replicate concat]. by rewrite list.filter_app, IH.
Qed.

Lemma Reset_inv cf : filterInv cf → filterInv (Filter.Reset cf).
Proof.
  intros [Hpow Hlen Hslots Hcount]. split; cbn [Filter.Reset Buckets Count BucketPow].
  - done.
  - by rewrite length_fmap.
  - apply Forall_fmap. revert Hslots. apply List.Forall_impl.
    intros b Hb. unfold Bucket.reset, compose. by rewrite length_fmap.
  - unfold occupied, storedFps.
    assert (∀ bs : list bucket,
              filter (λ fp, fp ≠ nullFp) (concat (Bucket.reset <$> bs)) = []) as ->; [|done].
    induction bs as [|b bs IH]; [done|].
    cbn [fmap list_fmap concat]. rewrite list.filter_app, IH, app_nil_r.
    unfold Bucket.reset. clear. induction b as [|x b IHb]; [done|].
    cbn [fmap list_fmap]. by rewrite filter_cons_False by (intros Hn; by apply Hn).
Qed.

Section FilterOps.
Context {H : HashLayer}.

Lemma Filter_insert_spec cf fp i :
  Z.to_nat i < length (Buckets cf) →
  (∃ j cf', Filter.insert cf fp i = Some (cf', true) ∧
     slot (Buckets cf) (Z.to_nat i) j = Some nullFp ∧
     Buckets cf' = writeSlot (Buckets cf) (Z.to_nat i) j fp ∧
     BucketPow cf' = BucketPow cf ∧
     Count cf' = wrap (Count cf + 1)) ∨
  (Filter.insert cf fp i = Some (cf, false) ∧ full (Buckets cf) i).
Proof.
  intros Hi. destruct (lookup_lt_is_Some_2 _ _ Hi) as [b Hb].
  unfold Filter.insert. rewrite Hb. cbn [mbind option_bind].
  destruct (Bucket_insert_spec b fp) as [(j & Hj & ->)|[Hfull ->]].
  - left. eexists j, _. split; [done|]. cbn [Buckets Count BucketPow].
    unfold slot. rewrite Hb. split; [done|]. by rewrite insert_writeSlot.
  - right. split; [done|]. by exists b.
Qed.

Lemma Filter_delete_spec cf fp i :
  Z.to_nat i < length (Buckets cf) →
  (∃ j cf', Filter.delete cf fp i = Some (cf', true) ∧
     slot (Buckets cf) (Z.to_nat i) j = Some fp ∧
     Buckets cf' = writeSlot (Buckets cf) (Z.to_nat i) j nullFp ∧
     BucketPow cf' = BucketPow cf ∧
     Count cf' = if decide (Count cf > 0)%Z then wrap (Count cf - 1) else Count cf) ∨
  (Filter.delete cf fp i = Some (cf, false) ∧ ¬ holds (Buckets cf) i fp).
Proof.
  intros Hi. destruct (lookup_lt_is_Some_2 _ _ Hi) as [b Hb].
  unfold Filter.delete. rewrite Hb. cbn [mbind option_bind].
  destruct (Bucket_delete_spec b fp) as [(j & Hj & ->)|[Hnone ->]].
  - left. eexists j, _. split; [done|]. cbn [Buckets Count BucketPow].
    unfold slot. rewrite Hb. split; [done|]. by rewrite insert_writeSlot.
  - right. split; [done|]. intros [j Hj]. unfold slot in Hj. rewrite Hb in Hj.
    by apply (Hnone j).
Qed.

End FilterOps.


(** ** Tracking a copy of a fingerprint through writes *)

Lemma tracked_hand_any t a1 a2 bs hand :
  tracked t a1 a2 bs None → tracked t a1 a2 bs hand.
Proof. intros [?|[?|(i & ? & _)]]; [by left|by right; left|done]. Qed.

(** A write into slot [(i, j)], which held [y]: a copy that was in hand
    must be what is written, and if the slot held a copy it must end up in
    hand, bound for one of the candidate buckets. *)
Lemma tracked_writeSlot t a1 a2 bs i j x y hand hand' :
  (0 ≤ i)%Z → (0 ≤ a1)%Z → (0 ≤ a2)%Z →
  slot bs (Z.to_nat i) j = Some y →
  (∀ k, hand = Some (t, k) → x = t ∧ k = i) →
  (y = t → i = a1 ∨ i = a2 → ∃ k, hand' = Some (t, k) ∧ (k = a1 ∨ k = a2)) →
  tracked t a1 a2 bs hand →
  tracked t a1 a2 (writeSlot bs (Z.to_nat i) j x) hand'.
Proof.
  intros Hi Ha1 Ha2 Hslot Hhand Hout Htr.
  assert (∀ a, (0 ≤ a)%Z → (a = a1 ∨ a = a2) → holds bs a t →
            tracked t a1 a2 (writeSlot bs (Z.to_nat i) j x) hand') as Hkeep.
  { intros a Ha Hor [j0 Hj0].
    destruct (decide (Z.to_nat a = Z.to_nat i ∧ j0 = j)) as [[Hai ->]|Hne].
    - assert (a = i) as -> by lia.
      rewrite Hslot in Hj0. injection Hj0 as ->.
      right. right. by apply Hout.
    - assert (holds (writeSlot bs (Z.to_nat i) j x) a t) as Hh.
      { exists j0. rewrite slot_writeSlot. by rewrite decide_False. }
      destruct Hor as [->| ->]; [by left|by right; left]. }
  destruct Htr as [Hh|[Hh|(k & Hk & Hor)]].
  - by apply (Hkeep a1); [|left|].
  - by apply (Hkeep a2); [|right|].
  - destruct (Hhand k Hk) as [-> ->].
    assert (holds (writeSlot bs (Z.to_nat i) j t) i t) as Hh.
    { exists j. rewrite slot_writeSlot, decide_True by done. by rewrite Hslot. }
    destruct Hor as [->| ->]; [by left|by right; left].
Qed.

Lemma filter_single_nonnull (x : fingerprint) :
  x ≠ nullFp → filter (λ fp, fp ≠ nullFp) [x] = [x].
Proof. intros Hx. by rewrite filter_cons_True. Qed.

Lemma filter_single_null : filter (λ fp, fp ≠ nullFp) [nullFp] = [].
Proof. by rewrite filter_cons_False by (intros Hn; by apply Hn). Qed.

Section Eviction.
Context {H : HashLayer}.

Lemma tracked_retarget pow t a1 a2 bs x i :
  homePair pow t a1 a2 →
  tracked t a1 a2 bs (Some (x, i)) →
  tracked t a1 a2 bs (Some (x, getAltIndex x i pow)).
Proof.
  intros (_ & _ & _ & H12 & H21) [?|[?|(k & Hk & Hor)]]; [by left|by right; left|].
  injection Hk as -> ->. right. right. eexists. split; [done|].
  destruct Hor as [->| ->]; [right|left]; done.
Qed.

Lemma setSlot_Buckets cf i j fp :
  Buckets (Filter.setSlot cf i j fp) = writeSlot (Buckets cf) (Z.to_nat i) j fp.
Proof. done. Qed.

Lemma full_slot_nonnull bs i j y :
  full bs i → slot bs (Z.to_nat i) j = Some y → y ≠ nullFp.
Proof.
  intros (b & Hb & Hall) Hslot. unfold slot in Hslot. rewrite Hb in Hslot.
  by apply (Forall_lookup_1 _ _ _ _ Hall Hslot).
Qed.

(** One attempt to place the fingerprint in hand: it lands in a free slot
    of its bucket, or the bucket is full and nothing changes. *)
Lemma evict_place cf0 fp0 i0 cf fp i :
  filterInv cf → BucketPow cf = BucketPow cf0 → fp ≠ nullFp →
  (0 ≤ i < 2 ^ BucketPow cf)%Z →
  (Count cf = Count cf0)%Z →
  fp :: storedFps (Buckets cf) ≡ₚ fp0 :: storedFps (Buckets cf0) →
  (∀ t a1 a2, homePair (BucketPow cf0) t a1 a2 →
     tracked t a1 a2 (Buckets cf0) (Some (fp0, i0)) →
     tracked t a1 a2 (Buckets cf) (Some (fp, i))) →
  (∃ cf', Filter.insert cf fp i = Some (cf', true) ∧ evictDone cf0 fp0 i0 cf') ∨
  (Filter.insert cf fp i = Some (cf, false) ∧ evictInv cf0 fp0 i0 cf fp i).
Proof.
  intros Hinv Hpow Hfp Hi Hcnt Hperm Htr.
  pose proof (filterInv_index _ _ Hinv Hi) as Hidx.
  pose proof (filterInv_count_bound _ Hinv) as Hbound.
  destruct (Filter_insert_spec cf fp i Hidx)
    as [(j & cf' & Hins & Hslot & Hbs & Hbp & Hc)|[Hins Hfull]].
  - left. exists cf'. split; [done|].
    rewrite wrap_small in Hc by lia.
    split; [|split; [congruence|split; [lia|split]]].
    + eapply (filterInv_write cf _ j nullFp fp); [done..|].
      rewrite (decide_True (P := fp ≠ nullFp)) by done.
      rewrite (decide_False (P := nullFp ≠ nullFp)) by (intros Hn; by apply Hn). lia.
    + pose proof (storedFps_writeSlot _ _ _ _ fp Hslot) as Hw.
      rewrite filter_single_null, filter_single_nonnull in Hw by done.
      rewrite Hbs. simpl in Hw. etrans; [exact Hw|]. exact Hperm.
    + intros t a1 a2 Hhome Ht. rewrite Hbs.
      pose proof Hhome as (Htn & Ha1 & Ha2 & _).
      eapply (tracked_writeSlot t a1 a2 _ i j fp nullFp (Some (fp, i)));
        [lia|done|done|done| | |by apply Htr].
      * intros k Hk. by injection Hk as -> ->.
      * intros Hnull. by destruct Htn.
  - right. split; [done|]. unfold evictInv. split_and!; try done; lia.
Qed.

(** One iteration of the loop of [reinsert]: the fingerprint in hand takes
    slot [j] of its bucket, and the fingerprint that was there is tried for
    its alternate bucket. *)
Lemma evict_step cf0 fp0 i0 cf fp i j :
  evictInv cf0 fp0 i0 cf fp i → j < bucketSize →
  ∃ y, slot (Buckets cf) (Z.to_nat i) j = Some y ∧
    let cf1 := Filter.setSlot cf i j fp in
    let i' := getAltIndex y i (BucketPow cf1) in
    (∃ cf', Filter.insert cf1 y i' = Some (cf', true) ∧ evictDone cf0 fp0 i0 cf') ∨
    (Filter.insert cf1 y i' = Some (cf1, false) ∧ evictInv cf0 fp0 i0 cf1 y i').
Proof.
  intros (Hinv & Hpow & Hfp & Hi & Hfull & Hcnt & Hperm & Htr) Hj.
  destruct (filterInv_slot cf i j Hinv Hi Hj) as [y Hslot].
  exists y. split; [done|]. cbn zeta.
  pose proof (full_slot_nonnull _ _ _ _ Hfull Hslot) as Hy.
  assert (filterInv (Filter.setSlot cf i j fp)) as Hinv1.
  { eapply (filterInv_write cf _ j y fp); [done..|].
    unfold Filter.setSlot. cbn [Count].
    rewrite (decide_True (P := fp ≠ nullFp)), (decide_True (P := y ≠ nullFp)) by done.
    lia. }
  apply evict_place; try done.
  - apply getAltIndex_range. pose proof (inv_pow _ Hinv1). lia.
  - pose proof (storedFps_writeSlot _ _ _ _ fp Hslot) as Hw.
    rewrite !filter_single_nonnull in Hw by done.
    simpl in Hw. rewrite setSlot_Buckets. by etrans; [exact Hw|].
  - intros t a1 a2 Hhome Ht. rewrite setSlot_Buckets.
    pose proof Hhome as (Htn & Ha1 & Ha2 & H12 & H21).
    eapply (tracked_writeSlot t a1 a2 _ i j fp y (Some (fp, i)));
      [lia|done|done|done| | |by apply Htr].
    + intros k Hk. by injection Hk as -> ->.
    + intros -> Hor. eexists. split; [done|].
      cbn [Filter.setSlot BucketPow]. rewrite Hpow.
      destruct Hor as [->| ->]; [right|left]; done.
Qed.

(** The loop of [reinsert] never panics: it ends with every fingerprint
    placed, or with the invariant and one fingerprint left in hand. *)
Lemma reinsertLoop_spec cf0 fp0 i0 iters :
  ∀ rnd cf fp i, evictInv cf0 fp0 i0 cf fp i →
  ∃ cf' hand ok, Filter.reinsertLoop iters rnd cf fp i = Some (cf', hand, ok) ∧
    if ok then evictDone cf0 fp0 i0 cf'
    else evictInv cf0 fp0 i0 cf' hand.1 hand.2.
Proof.
  induction iters as [|iters IH]; intros rnd cf fp i Hinv.
  - exists cf, (fp, i), false. done.
  - assert (Intn (rnd 0) bucketSize < bucketSize) as Hj
      by (apply Nat.mod_upper_bound; done).
    destruct (evict_step _ _ _ _ _ _ _ Hinv Hj) as (y & Hslot & Hstep).
    cbn zeta in Hstep. cbn [Filter.reinsertLoop].
    unfold slot in Hslot.
    destruct (Buckets cf !! Z.to_nat i) as [b|] eqn:Hb; [|done].
    cbn [mbind option_bind] in Hslot |- *. rewrite Hslot. cbn [mbind option_bind].
    destruct Hstep as [(cf' & -> & Hdone)|[-> Hinv']]; cbn [mbind option_bind].
    + by exists cf', (y, getAltIndex y i (BucketPow (Filter.setSlot cf i (Intn (rnd 0) bucketSize) fp))), true.
    + apply IH. done.
Qed.

End Eviction.


(** ** The operations on a well-formed filter *)

Section Operations.
Context {H : HashLayer} {Hspec : HashLayerSpec H}.

Lemma homePair_data cf data :
  filterInv cf →
  homePair (BucketPow cf) (getIndexAndFingerprint data (BucketPow cf)).2
    (getIndexAndFingerprint data (BucketPow cf)).1
    (getAltIndex (getIndexAndFingerprint data (BucketPow cf)).2
       (getIndexAndFingerprint data (BucketPow cf)).1 (BucketPow cf)).
Proof.
  intros Hinv. pose proof (inv_pow _ Hinv) as Hpow.
  pose proof (getIndexAndFingerprint_range data (BucketPow cf)) as Hi1.
  split; [apply hashFingerprint_nonnull|].
  split; [lia|]. split; [apply getAltIndex_range; lia|]. split; [done|].
  apply getAltIndex_back; lia.
Qed.

(** [Insert] never panics on a well-formed filter.  When it succeeds the
    new fingerprint was added and nothing else changed hands; when it fails
    one fingerprint is left in hand. *)
Lemma Insert_spec rnd cf data :
  filterInv cf →
  ∃ cf' ok, Filter.Insert rnd cf data = Some (cf', ok) ∧
    if ok
    then evicted rnd cf data = None ∧
         evictDone cf (getIndexAndFingerprint data (BucketPow cf)).2
           (getIndexAndFingerprint data (BucketPow cf)).1 cf'
    else ∃ hand, evicted rnd cf data = Some hand ∧
         evictInv cf (getIndexAndFingerprint data (BucketPow cf)).2
           (getIndexAndFingerprint data (BucketPow cf)).1 cf' hand.1 hand.2.
Proof.
  intros Hinv. pose proof (inv_pow _ Hinv) as Hpow.
  pose proof (homePair_data cf data Hinv) as Hhome.
  pose proof (getIndexAndFingerprint_range data (BucketPow cf)) as Hi1.
  unfold Filter.Insert, evicted.
  destruct (getIndexAndFingerprint data (BucketPow cf)) as [i1 fp] eqn:Hif.
  cbn [fst snd] in *.
  assert (fp ≠ nullFp) as Hfp by apply Hhome.
  destruct (evict_place cf fp i1 cf fp i1) as [(cf1 & -> & Hdone)|[-> Hinv1]];
    [done|done|done|lia|done|done|done| |].
  { cbn [mbind option_bind]. by exists cf1, true. }
  cbn [mbind option_bind].
  destruct (evict_place cf fp i1 cf fp (getAltIndex fp i1 (BucketPow cf)))
    as [(cf2 & -> & Hdone)|[-> Hinv2]];
    [done|done|done|apply getAltIndex_range; lia|done|done| | |].
  { intros t a1 a2 Ht. by apply tracked_retarget. }
  { cbn [mbind option_bind]. by exists cf2, true. }
  cbn [mbind option_bind].
  assert (evictInv cf fp i1 cf fp
            (randi (rnd 0) i1 (getAltIndex fp i1 (BucketPow cf)))) as Hstart.
  { unfold randi. by destruct (decide _). }
  destruct (reinsertLoop_spec cf fp i1 maxCuckooCount (rndTail rnd) _ _ _ Hstart)
    as (cf' & hand & ok & Hrun & Hpost).
  unfold Filter.reinsert. rewrite Hrun. cbn [mbind option_bind].
  exists cf', ok. split; [done|]. destruct ok; [done|]. by exists hand.
Qed.

Lemma holds_lookup bs i fp :
  holds bs i fp ↔ ∃ b : bucket, bs !! Z.to_nat i = Some b ∧ ∃ j, b !! j = Some fp.
Proof.
  unfold holds, slot. split.
  - intros [j Hj]. destruct (bs !! Z.to_nat i) as [b|]; [|done]. eauto.
  - intros (b & Hb & j & Hj). exists j. by rewrite Hb.
Qed.

(** [Lookup] never panics on a well-formed filter, and answers whether one
    of the two candidate buckets holds the fingerprint. *)
Lemma Lookup_spec cf data :
  filterInv cf →
  ∃ found, Filter.Lookup cf data = Some found ∧ (found = true ↔ storedIn cf data).
Proof.
  intros Hinv. pose proof (inv_pow _ Hinv) as Hpow.
  pose proof (getIndexAndFingerprint_range data (BucketPow cf)) as Hi1.
  unfold Filter.Lookup, storedIn.
  destruct (getIndexAndFingerprint data (BucketPow cf)) as [i1 fp].
  cbn [fst snd] in *.
  assert (0 ≤ getAltIndex fp i1 (BucketPow cf) < 2 ^ BucketPow cf)%Z as Hi2
    by (apply getAltIndex_range; lia).
  destruct (lookup_lt_is_Some_2 _ _ (filterInv_index cf i1 Hinv ltac:(lia))) as [b1 Hb1].
  destruct (lookup_lt_is_Some_2 _ _ (filterInv_index cf _ Hinv Hi2)) as [b2 Hb2].
  rewrite Hb1. cbn [mbind option_bind].
  assert (holds (Buckets cf) i1 fp ↔ (Bucket.getFingerprintIndex b1 fp > -1)%Z) as H1.
  { rewrite holds_lookup, Bucket_getFingerprintIndex_spec. split.
    - intros (b & Hb & Hj). by simplify_eq.
    - intros Hj. eauto. }
  assert (holds (Buckets cf) (getAltIndex fp i1 (BucketPow cf)) fp
          ↔ (Bucket.getFingerprintIndex b2 fp > -1)%Z) as H2.
  { rewrite holds_lookup, Bucket_getFingerprintIndex_spec. split.
    - intros (b & Hb & Hj). by simplify_eq.
    - intros Hj. eauto. }
  destruct (decide (Bucket.getFingerprintIndex b1 fp > -1)%Z) as [Hin|Hout].
  - exists true. split; [done|]. rewrite H1. split; [|done]. intros _. by left.
  - rewrite Hb2. cbn [mbind option_bind]. eexists. split; [done|].
    rewrite H1, H2, bool_decide_eq_true. split; [by right|]. by intros [?|?].
Qed.

(** [Delete] never panics on a well-formed filter.  It empties one slot
    that held the fingerprint in one of the two candidate buckets, or finds
    none and changes nothing. *)
Lemma Delete_spec cf data :
  filterInv cf →
  let fp := (getIndexAndFingerprint data (BucketPow cf)).2 in
  let i1 := (getIndexAndFingerprint data (BucketPow cf)).1 in
  let i2 := getAltIndex fp i1 (BucketPow cf) in
  (∃ i j cf', Filter.Delete cf data = Some (cf', true) ∧
     (i = i1 ∨ i = i2) ∧ (0 ≤ i)%Z ∧
     slot (Buckets cf) (Z.to_nat i) j = Some fp ∧
     Buckets cf' = writeSlot (Buckets cf) (Z.to_nat i) j nullFp ∧
     BucketPow cf' = BucketPow cf ∧
     Count cf' = (Count cf - 1)%Z ∧ (0 ≤ Count cf')%Z ∧
     filterInv cf') ∨
  (Filter.Delete cf data = Some (cf, false) ∧
     ¬ holds (Buckets cf) i1 fp ∧ ¬ holds (Buckets cf) i2 fp).
Proof.
  intros Hinv. pose proof (inv_pow _ Hinv) as Hpow.
  pose proof (homePair_data cf data Hinv) as (Hfp & _).
  pose proof (getIndexAndFingerprint_range data (BucketPow cf)) as Hi1.
  unfold Filter.Delete.
  destruct (getIndexAndFingerprint data (BucketPow cf)) as [i1 fp].
  cbn [fst snd] in *. cbn zeta.
  assert (0 ≤ getAltIndex fp i1 (BucketPow cf) < 2 ^ BucketPow cf)%Z as Hi2
    by (apply getAltIndex_range; lia).
  pose proof (filterInv_count_bound _ Hinv) as Hbound.
  assert (∀ i j cf', (0 ≤ i)%Z →
            slot (Buckets cf) (Z.to_nat i) j = Some fp →
            Buckets cf' = writeSlot (Buckets cf) (Z.to_nat i) j nullFp →
            BucketPow cf' = BucketPow cf →
            Count cf' = (if decide (Count cf > 0)%Z then wrap (Count cf - 1) else Count cf) →
            Count cf' = (Count cf - 1)%Z ∧ (0 ≤ Count cf')%Z ∧ filterInv cf') as Hdel.
  { intros i j cf' Hi Hslot Hbs Hbp Hc.
    pose proof (occupied_writeSlot _ _ _ _ nullFp Hslot) as Hocc.
    rewrite (decide_True (P := fp ≠ nullFp)) in Hocc by done.
    rewrite (decide_False (P := nullFp ≠ nullFp)) in Hocc by (intros Hn; by apply Hn).
    rewrite (inv_count _ Hinv) in *.
    rewrite decide_True in Hc by lia. rewrite wrap_small in Hc by lia.
    split; [done|]. split; [lia|].
    eapply (filterInv_write cf _ j fp nullFp); [done..|].
    rewrite (decide_True (P := fp ≠ nullFp)) by done.
    rewrite (decide_False (P := nullFp ≠ nullFp)) by (intros Hn; by apply Hn).
    rewrite (inv_count _ Hinv). lia. }
  destruct (Filter_delete_spec cf fp i1 (filterInv_index cf i1 Hinv ltac:(lia)))
    as [(j & cf' & -> & Hslot & Hbs & Hbp & Hc)|[-> Hno1]]; cbn [mbind option_bind].
  { left. exists i1, j, cf'. split; [done|]. split; [by left|]. split; [lia|].
    split; [done|]. split; [done|]. split; [done|]. by apply (Hdel i1 j); [lia|..]. }
  destruct (Filter_delete_spec cf fp _ (filterInv_index cf _ Hinv Hi2))
    as [(j & cf' & Hdelete & Hslot & Hbs & Hbp & Hc)|[Hdelete Hno2]].
  - left. exists (getAltIndex fp i1 (BucketPow cf)), j, cf'.
    split; [done|]. split; [by right|]. split; [lia|].
    split; [done|]. split; [done|]. split; [done|]. by apply (Hdel (getAltIndex fp i1 (BucketPow cf)) j); [lia|..].
  - right. done.
Qed.

End Operations.


(** ** Reachable filters *)

Lemma sampleHash_spec : HashLayerSpec sampleHash.
Proof.
  split. intros [|b data]; cbn [hashFingerprint sampleHash]; [done|].
  by destruct (decide (b = nullFp)).
Qed.

Section Reachable.
Context {H : HashLayer} {Hspec : HashLayerSpec H}.

(** No call panics on a well-formed filter, and every call leaves the
    filter well formed with the same number of buckets. *)
Lemma runOp_spec cf o :
  filterInv cf →
  ∃ cf' r, runOp cf o = Some (cf', r) ∧ filterInv cf' ∧ BucketPow cf' = BucketPow cf.
Proof.
  intros Hinv. destruct o as [rnd data|rnd data|data|]; cbn [runOp].
  - destruct (Insert_spec rnd cf data Hinv) as (cf' & ok & Hrun & Hpost).
    exists cf', ok. split; [done|]. destruct ok.
    + destruct Hpost as (_ & Hinv' & Hbp & _). done.
    + destruct Hpost as (hand & _ & Hinv' & Hbp & _). done.
  - unfold Filter.InsertUnique.
    destruct (Lookup_spec cf data Hinv) as (found & -> & _). cbn [mbind option_bind].
    destruct found; [by exists cf, false|].
    destruct (Insert_spec rnd cf data Hinv) as (cf' & ok & Hrun & Hpost).
    exists cf', ok. split; [done|]. destruct ok.
    + destruct Hpost as (_ & Hinv' & Hbp & _). done.
    + destruct Hpost as (hand & _ & Hinv' & Hbp & _). done.
  - destruct (Delete_spec cf data Hinv)
      as [(i & j & cf' & Hrun & _ & _ & _ & _ & Hbp & _ & _ & Hinv')|(Hrun & _)].
    + by exists cf', true.
    + by exists cf, false.
  - exists (Filter.Reset cf), true. split; [done|]. split; [by apply Reset_inv|done].
Qed.

Lemma reachable_inv cf : reachable cf → filterInv cf.
Proof.
  induction 1 as [capacity|cf o cf' r _ IH Hrun]; [apply NewFilter_inv|].
  destruct (runOp_spec cf o IH) as (cf'' & r' & Hrun' & Hinv' & _).
  by simplify_eq.
Qed.

Lemma runOps_spec cf os :
  filterInv cf → ∃ cf', runOps cf os = Some cf' ∧ filterInv cf'.
Proof.
  revert cf. induction os as [|o os IH]; intros cf Hinv; [by exists cf|].
  destruct (runOp_spec cf o Hinv) as (cf' & r & Hrun & Hinv' & _).
  cbn [runOps]. rewrite Hrun. cbn [mbind option_bind fst]. by apply IH.
Qed.

Lemma reachable_runOps cf os cf' :
  reachable cf → runOps cf os = Some cf' → reachable cf'.
Proof.
  revert cf. induction os as [|o os IH]; intros cf Hreach Hrun.
  - by simplify_eq/=.
  - cbn [runOps] in Hrun. destruct (runOp cf o) as [[cf1 r]|] eqn:Hop; [|done].
    cbn [mbind option_bind fst] in Hrun.
    apply (IH cf1); [|done]. by eapply reachable_step.
Qed.

End Reachable.

(** The four insertions of [fillOps] lead from [NewFilter 0] to
    [fullFilter]. *)
Lemma fullFilter_reachable : reachable (H := sampleHash) fullFilter.
Proof.
  apply (reachable_runOps (H := sampleHash) (NewFilter 0) fillOps).
  - apply reachable_new.
  - by vm_compute.
Qed.

(** The count of a decoded filter is the number of its occupied slots, as
    long as the input is no longer than a Go slice can be. *)
Lemma decoded_count (bytes : list byte) :
  (Z.of_nat (length bytes) < 2 ^ 63)%Z → length bytes mod bucketSize = 0 →
  Count (decoded bytes) = Z.of_nat (occupied (Buckets (decoded bytes))).
Proof.
  intros Hlen Hmod. unfold decoded, occupied, storedFps. cbn [Buckets Count].
  rewrite concat_reshape_uniform.
  - unfold nullFp. apply wrap_small.
    pose proof (length_filter (λ x, x ≠ x00) bytes). lia.
  - unfold bucketSize in *. pose proof (Nat.div_mod_eq (length bytes) 4). lia.
Qed.

Lemma Decode_inr (bytes : list byte) cf :
  Decode bytes = Some (inr cf) →
  length bytes mod bucketSize = 0 ∧ length bytes ≠ 0 ∧ cf = decoded bytes.
Proof.
  intros Hdec.
  destruct (decide (length bytes mod bucketSize = 0)) as [Hmod|Hmod]; last first.
  { unfold Decode in Hdec. by rewrite decide_True in Hdec by done. }
  destruct (decide (length bytes = 0)) as [Hlen|Hlen].
  { unfold Decode in Hdec. rewrite decide_False in Hdec by (intros Hn; by apply Hn).
    by rewrite decide_True in Hdec by done. }
  rewrite Decode_ok in Hdec by done. by simplify_eq.
Qed.


(** ** Counting, deleting, encoding *)

Section Claims.
Context {H : HashLayer} {Hspec : HashLayerSpec H}.

(** C2. Count invariant: in every filter reachable from [NewFilter] by
    calls of [Insert], [InsertUnique], [Delete] and [Reset], whatever the
    random draws, and in every filter returned by [Decode], [CountEntries]
    is the number of slots whose fingerprint is not the empty value 0. *)
Theorem count_invariant :
  (∀ cf, reachable cf → Filter.CountEntries cf = Z.of_nat (occupied (Buckets cf))) ∧
  (∀ (bytes : list byte) cf,
     (Z.of_nat (length bytes) < 2 ^ 63)%Z → Decode bytes = Some (inr cf) →
     Filter.CountEntries cf = Z.of_nat (occupied (Buckets cf))).
Proof.
  split.
  - intros cf Hreach. apply inv_count. by apply reachable_inv.
  - intros bytes cf Hlen Hdec. apply Decode_inr in Hdec as (Hmod & _ & ->).
    by apply decoded_count.
Qed.

(** C6. Insert count delta: on a reachable filter, whatever the random
    draws, [Insert] returns, and when it returns true the count is the count
    before plus exactly 1; a swap of the eviction loop leaves the count
    alone, and so does an [Insert] that returns false. *)
Theorem Insert_count_delta rnd cf data :
  reachable cf →
  ∃ cf' ok, Filter.Insert rnd cf data = Some (cf', ok) ∧
    (ok = true → Count cf' = (Count cf + 1)%Z) ∧
    (ok = false → Count cf' = Count cf) ∧
    ∀ i j fp, Count (Filter.setSlot cf i j fp) = Count cf.
Proof.
  intros Hreach. pose proof (reachable_inv cf Hreach) as Hinv.
  destruct (Insert_spec rnd cf data Hinv) as (cf' & ok & Hrun & Hpost).
  exists cf', ok. split; [done|]. destruct ok.
  - destruct Hpost as (_ & _ & _ & Hc & _). done.
  - destruct Hpost as (hand & _ & _ & _ & _ & _ & _ & Hc & _). done.
Qed.

(** C7. Delete contract: on a reachable filter [Delete] returns true
    exactly when the fingerprint of the input occupies a slot of one of its
    two candidate buckets; then one slot that held it, in one of those
    buckets, becomes empty, every other slot is untouched and the count
    goes down by 1 without going below 0; when it returns false the filter
    is unchanged. *)
Theorem Delete_contract cf data :
  reachable cf →
  let fp := (getIndexAndFingerprint data (BucketPow cf)).2 in
  let i1 := (getIndexAndFingerprint data (BucketPow cf)).1 in
  let i2 := getAltIndex fp i1 (BucketPow cf) in
  ∃ cf' ok, Filter.Delete cf data = Some (cf', ok) ∧
    (ok = true ↔ holds (Buckets cf) i1 fp ∨ holds (Buckets cf) i2 fp) ∧
    (ok = true →
       ∃ i j, (i = i1 ∨ i = i2) ∧
         slot (Buckets cf) (Z.to_nat i) j = Some fp ∧
         slot (Buckets cf') (Z.to_nat i) j = Some nullFp ∧
         (∀ i' j', ¬ (i' = Z.to_nat i ∧ j' = j) →
            slot (Buckets cf') i' j' = slot (Buckets cf) i' j') ∧
         Count cf' = (Count cf - 1)%Z ∧ (0 ≤ Count cf')%Z ∧
         BucketPow cf' = BucketPow cf) ∧
    (ok = false → cf' = cf).
Proof.
  intros Hreach. pose proof (reachable_inv cf Hreach) as Hinv. cbn zeta.
  destruct (Delete_spec cf data Hinv)
    as [(i & j & cf' & Hrun & Hor & Hi & Hslot & Hbs & Hbp & Hc & Hc0 & _)|(Hrun & Hno1 & Hno2)].
  - exists cf', true. split; [done|]. split; [|split; [|done]].
    + split; [|done]. intros _. destruct Hor as [->| ->]; [left|right]; by exists j.
    + intros _. exists i, j. split; [done|]. split; [done|]. rewrite Hbs.
      split; [|split; [|done]].
      * rewrite slot_writeSlot, decide_True by done. by rewrite Hslot.
      * intros i' j' Hne. by rewrite slot_writeSlot, decide_False.
  - exists cf, false. split; [done|]. split; [|done].
    split; [done|]. by intros [?|?].
Qed.

(** C4. Encode/Decode round trip: for a reachable filter [Encode] returns
    four bytes per bucket, the byte at [4 * i + j] being the fingerprint of
    slot [j] of bucket [i] (0 for an empty slot), and [Decode] of these
    bytes succeeds with the same buckets, the same count and the same
    [BucketPow]. *)
Theorem Encode_Decode_roundtrip cf :
  reachable cf →
  ∃ bytes : list byte, Filter.Encode cf = Some bytes ∧
    length bytes = length (Buckets cf) * 4 ∧
    (∀ i j, j < 4 → bytes !! (i * 4 + j) = slot (Buckets cf) i j) ∧
    ∃ cf', Decode bytes = Some (inr cf') ∧
      Buckets cf' = Buckets cf ∧ Count cf' = Count cf ∧
      BucketPow cf' = BucketPow cf.
Proof.
  intros Hreach. destruct (reachable_inv cf Hreach) as [Hpow Hlen Hslots Hcount].
  exists (concat (Buckets cf)). split; [by apply Encode_concat|].
  pose proof (length_concat_uniform _ _ Hslots) as Hlenc.
  change bucketSize with 4 in Hlenc.
  split; [done|]. split.
  { intros i j Hj. by apply (lookup_concat_uniform _ 4). }
  assert (0 < 2 ^ BucketPow cf)%Z by (apply Z.pow_pos_nonneg; lia).
  assert (length (concat (Buckets cf)) / 4 = length (Buckets cf)) as Hdiv.
  { rewrite Hlenc. by apply Nat.div_mul. }
  exists (decoded (concat (Buckets cf))). split.
  { apply Decode_ok; rewrite Hlenc; [apply Nat.Div0.mod_mul|lia]. }
  unfold decoded. cbn [Buckets Count BucketPow]. rewrite Hdiv.
  split; [by apply reshape_concat_uniform|]. split.
  - rewrite Hcount. unfold occupied, storedFps, nullFp. apply wrap_small.
    pose proof (length_filter (λ x, x ≠ x00) (concat (Buckets cf))) as Hle.
    assert (2 ^ BucketPow cf ≤ 2 ^ 61)%Z by (apply Z.pow_le_mono_r; lia). lia.
  - rewrite Hlen. apply TrailingZeros_pow2. lia.
Qed.

End Claims.

Lemma count_invariant_witness :
  Filter.CountEntries fullFilter = Z.of_nat (occupied (Buckets fullFilter)) ∧
  Filter.CountEntries (decoded [x00; x07; x00; x09])
  = Z.of_nat (occupied (Buckets (decoded [x00; x07; x00; x09]))).
Proof.
  destruct (count_invariant (H := sampleHash) (Hspec := sampleHash_spec))
    as [Hreach Hdec].
  split.
  - apply Hreach. apply fullFilter_reachable.
  - apply (Hdec [x00; x07; x00; x09]); [by vm_compute|reflexivity].
Defined.

Lemma Insert_count_delta_witness :
  ∃ cf' ok, Filter.Insert (H := sampleHash) (λ _, 0) fullFilter [x09] = Some (cf', ok) ∧
    (ok = true → Count cf' = (Count fullFilter + 1)%Z) ∧
    (ok = false → Count cf' = Count fullFilter) ∧
    ∀ i j fp, Count (Filter.setSlot fullFilter i j fp) = Count fullFilter.
Proof.
  apply (Insert_count_delta (H := sampleHash) (Hspec := sampleHash_spec)).
  apply fullFilter_reachable.
Defined.

Lemma Delete_contract_witness :
  ∃ cf' ok, Filter.Delete (H := sampleHash) fullFilter [x06] = Some (cf', ok) ∧
    (ok = true → Count cf' = (Count fullFilter - 1)%Z) ∧
    (ok = false → cf' = fullFilter).
Proof.
  destruct (Delete_contract (H := sampleHash) (Hspec := sampleHash_spec)
              fullFilter [x06]) as (cf' & ok & Hrun & _ & Hyes & Hno).
  - apply fullFilter_reachable.
  - exists cf', ok. split; [done|]. split; [|done].
    intros Hok. by destruct (Hyes Hok) as (i & j & _ & _ & _ & _ & Hc & _).
Defined.

Lemma Encode_Decode_roundtrip_witness :
  ∃ bytes : list byte, Filter.Encode fullFilter = Some bytes ∧
    ∃ cf', Decode bytes = Some (inr cf') ∧ Buckets cf' = Buckets fullFilter.
Proof.
  destruct (Encode_Decode_roundtrip (H := sampleHash) (Hspec := sampleHash_spec)
              fullFilter) as (bytes & Henc & _ & _ & cf' & Hdec & Hbs & _).
  - apply fullFilter_reachable.
  - exists bytes. split; [done|]. by exists cf'.
Defined.

(** ** A failed insertion *)

Section FailedInsert.
Context {H : HashLayer} {Hspec : HashLayerSpec H}.

(** C5, as the code has it.  When [Insert] returns false on a reachable
    filter, one fingerprint is left in hand and dropped: the fingerprints
    stored after the call together with the dropped one are the
    fingerprints stored before the call together with the fingerprint of
    the input.  The number of stored fingerprints and the count are the
    same as before, and the stored fingerprints are the same as before
    exactly when the dropped fingerprint is the one of the input. *)
Theorem failed_Insert_exchanges_one rnd cf data cf' :
  reachable cf → Filter.Insert rnd cf data = Some (cf', false) →
  let fp := (getIndexAndFingerprint data (BucketPow cf)).2 in
  ∃ hand, evicted rnd cf data = Some hand ∧ hand.1 ≠ nullFp ∧
    hand.1 :: storedFps (Buckets cf') ≡ₚ fp :: storedFps (Buckets cf) ∧
    occupied (Buckets cf') = occupied (Buckets cf) ∧
    Count cf' = Count cf ∧
    (hand.1 = fp ↔ storedFps (Buckets cf') ≡ₚ storedFps (Buckets cf)).
Proof.
  intros Hreach Hrun. cbn zeta. pose proof (reachable_inv cf Hreach) as Hinv.
  destruct (Insert_spec rnd cf data Hinv) as (cf'' & ok & Hrun' & Hpost).
  rewrite Hrun in Hrun'. injection Hrun' as <- <-.
  destruct Hpost as (hand & Hev & Hinv' & _ & Hne & _ & _ & Hc & Hperm & _).
  exists hand. split; [done|]. split; [done|]. split; [done|].
  split; [|split; [done|]].
  - rewrite (inv_count _ Hinv), (inv_count _ Hinv') in Hc. lia.
  - split.
    + intros Heq. rewrite Heq in Hperm. by apply (Permutation_cons_inv Hperm).
    + intros Hsame. rewrite Hsame in Hperm.
      apply (Permutation_app_inv_r _ [hand.1] [_]) in Hperm.
      by apply Permutation_length_1.
Qed.

End FailedInsert.

Lemma failed_Insert_exchanges_one_witness :
  ∃ hand, evicted (H := sampleHash) churnDraws fullFilter [x09] = Some hand ∧
    hand.1 :: storedFps [[x09; x05; x07; x08]] ≡ₚ x09 :: storedFps (Buckets fullFilter).
Proof.
  destruct (failed_Insert_exchanges_one (H := sampleHash) (Hspec := sampleHash_spec)
              churnDraws fullFilter [x09]
              {| Buckets := [[x09; x05; x07; x08]]; Count := 4; BucketPow := 0 |})
    as (hand & Hev & _ & Hperm & _).
  - apply fullFilter_reachable.
  - by vm_compute.
  - exists hand. split; [done|]. exact Hperm.
Defined.

(** C5, as the claim states it, fails: on the full one-bucket filter the
    insertion of the input [[9]] with the draws [churnDraws] returns false,
    and the fingerprint 6 that was stored before the call is stored no
    more, while 9 is. *)
Lemma failed_Insert_changes_stored_fingerprints :
  reachable (H := sampleHash) fullFilter ∧
  Filter.Insert (H := sampleHash) churnDraws fullFilter [x09]
  = Some ({| Buckets := [[x09; x05; x07; x08]]; Count := 4; BucketPow := 0 |}, false) ∧
  storedFps (Buckets fullFilter) = [x05; x06; x07; x08] ∧
  storedFps [[x09; x05; x07; x08]] = [x09; x05; x07; x08] ∧
  ¬ (storedFps [[x09; x05; x07; x08]] ≡ₚ storedFps (Buckets fullFilter)).
Proof.
  split; [apply fullFilter_reachable|]. split; [by vm_compute|].
  split; [by vm_compute|]. split; [by vm_compute|].
  intros Hperm.
  assert (x06 ∈ storedFps [[x09; x05; x07; x08]]) as Hin.
  { rewrite Hperm. apply list_elem_of_In. cbv. auto. }
  apply list_elem_of_In in Hin. cbv in Hin. intuition discriminate.
Qed.


(** ** No false negatives *)

Section NoFalseNegatives.
Context {H : HashLayer} {Hspec : HashLayerSpec H}.

Lemma storedIn_tracked cf data :
  storedIn cf data ↔
  tracked (getIndexAndFingerprint data (BucketPow cf)).2
    (getIndexAndFingerprint data (BucketPow cf)).1
    (getAltIndex (getIndexAndFingerprint data (BucketPow cf)).2
       (getIndexAndFingerprint data (BucketPow cf)).1 (BucketPow cf))
    (Buckets cf) None.
Proof.
  unfold storedIn, tracked.
  destruct (getIndexAndFingerprint data (BucketPow cf)) as [i1 fp]. cbn [fst snd].
  split; [intros [?|?]; auto|intros [?|[?|(i & ? & _)]]; auto; done].
Qed.

Lemma copyOf_unfold pow data hand :
  copyOf pow data hand ↔
  hand.1 = (getIndexAndFingerprint data pow).2 ∧
  (hand.2 = (getIndexAndFingerprint data pow).1 ∨
   hand.2 = getAltIndex (getIndexAndFingerprint data pow).2
              (getIndexAndFingerprint data pow).1 pow).
Proof. unfold copyOf. by destruct (getIndexAndFingerprint data pow). Qed.

(** A successful [Insert] stores its input. *)
Lemma Insert_stores rnd cf data cf' :
  filterInv cf → Filter.Insert rnd cf data = Some (cf', true) → storedIn cf' data.
Proof.
  intros Hinv Hrun.
  destruct (Insert_spec rnd cf data Hinv) as (cf'' & ok & Hrun' & Hpost).
  rewrite Hrun in Hrun'. injection Hrun' as <- <-.
  destruct Hpost as (_ & _ & Hbp & _ & _ & Htr).
  apply storedIn_tracked. rewrite Hbp. apply Htr; [by apply homePair_data|].
  right. right. eexists. split; [done|]. by left.
Qed.

(** An [Insert] that does not end with a copy of the fingerprint of [data]
    left in hand keeps [data] stored. *)
Lemma Insert_keeps rnd cf data data' cf' ok :
  filterInv cf → storedIn cf data →
  (∀ hand, evicted rnd cf data' = Some hand → ¬ copyOf (BucketPow cf) data hand) →
  Filter.Insert rnd cf data' = Some (cf', ok) → storedIn cf' data.
Proof.
  intros Hinv Hst Hspare Hrun.
  destruct (Insert_spec rnd cf data' Hinv) as (cf'' & ok' & Hrun' & Hpost).
  rewrite Hrun in Hrun'. simplify_eq.
  apply storedIn_tracked in Hst.
  pose proof (homePair_data cf data Hinv) as Hhome.
  apply storedIn_tracked. destruct ok'.
  - destruct Hpost as (_ & _ & Hbp & _ & _ & Htr). rewrite Hbp.
    apply Htr; [done|]. by apply tracked_hand_any.
  - destruct Hpost as (hand & Hev & _ & Hbp & _ & _ & _ & _ & _ & Htr). rewrite Hbp.
    destruct (Htr _ _ _ Hhome (tracked_hand_any _ _ _ _ _ Hst)) as [?|[?|(i & Hi & Hor)]];
      [by left|by right; left|].
    destruct (Hspare hand Hev). apply copyOf_unfold.
    injection Hi as -> ->. done.
Qed.

(** The deletion of an input that does not share the home of [data] keeps
    [data] stored. *)
Lemma Delete_keeps cf data data' cf' r :
  filterInv cf → storedIn cf data → ¬ sameHome (BucketPow cf) data data' →
  Filter.Delete cf data' = Some (cf', r) → storedIn cf' data.
Proof.
  intros Hinv Hst Hspare Hrun. pose proof (inv_pow _ Hinv) as Hpow.
  destruct (Delete_spec cf data' Hinv)
    as [(i & j & cf'' & Hrun' & Hor & Hi & Hslot & Hbs & Hbp & _)|(Hrun' & _)];
    rewrite Hrun in Hrun'; simplify_eq; [|done].
  apply storedIn_tracked in Hst. apply storedIn_tracked. rewrite Hbs, Hbp.
  pose proof (homePair_data cf data Hinv) as (Ht & Ha1 & Ha2 & H12 & H21).
  pose proof (getIndexAndFingerprint_range data' (BucketPow cf)) as Hi1'.
  eapply (tracked_writeSlot _ _ _ _ i j nullFp _ None None); [done..| |done].
  intros Heq Hin. destruct Hspare. unfold sameHome. apply copyOf_unfold. cbn [fst snd].
  split; [done|]. destruct Hor as [->| ->]; [done|].
  assert (getAltIndex (getIndexAndFingerprint data' (BucketPow cf)).2
            (getAltIndex (getIndexAndFingerprint data' (BucketPow cf)).2
               (getIndexAndFingerprint data' (BucketPow cf)).1 (BucketPow cf))
            (BucketPow cf)
          = (getIndexAndFingerprint data' (BucketPow cf)).1) as Hback
    by (apply getAltIndex_back; lia).
  destruct Hin as [Hin|Hin]; rewrite Hin, Heq in Hback.
  - right. by rewrite <- Hback.
  - left. by rewrite <- Hback.
Qed.

Lemma runOp_keeps cf data o cf' r :
  filterInv cf → storedIn cf data → sparesOp data cf o →
  runOp cf o = Some (cf', r) → storedIn cf' data.
Proof.
  intros Hinv Hst Hspare Hrun. destruct o as [rnd data'|rnd data'|data'|];
    cbn [runOp sparesOp] in *.
  - by eapply Insert_keeps.
  - unfold Filter.InsertUnique in Hrun.
    destruct (Lookup_spec cf data' Hinv) as (found & Hlook & _).
    rewrite Hlook in Hrun. cbn [mbind option_bind] in Hrun.
    destruct found; [by simplify_eq|].
    eapply Insert_keeps; [done|done| |done]. by apply Hspare.
  - by eapply Delete_keeps.
  - done.
Qed.

(** C1, as the code has it.  After an [Insert] of [data] that returns true
    on a reachable filter, whatever the random draws, [Lookup] of [data]
    returns true, and it still does after any further calls of [Insert],
    [InsertUnique] and [Delete] among which no [Delete] is of an input with
    the fingerprint of [data] and one of its candidate buckets ([data]
    itself is one), and no insertion gives up with a copy of that
    fingerprint left in hand. *)
Theorem no_false_negatives rnd cf data cf1 os :
  reachable cf → Filter.Insert rnd cf data = Some (cf1, true) →
  spares data cf1 os →
  Filter.Lookup cf1 data = Some true ∧
  ∃ cf2, runOps cf1 os = Some cf2 ∧ Filter.Lookup cf2 data = Some true.
Proof.
  intros Hreach Hrun Hspares. pose proof (reachable_inv cf Hreach) as Hinv.
  pose proof (Insert_stores rnd cf data cf1 Hinv Hrun) as Hst.
  assert (filterInv cf1) as Hinv1.
  { destruct (runOp_spec cf (OpInsert rnd data) Hinv) as (cf' & r & Hrun' & Hinv' & _).
    cbn [runOp] in Hrun'. by simplify_eq. }
  assert (∀ cf, filterInv cf → storedIn cf data → Filter.Lookup cf data = Some true)
    as Hlook.
  { intros cf' Hinv' Hst'. destruct (Lookup_spec cf' data Hinv') as (found & -> & Hiff).
    f_equal. by apply Hiff. }
  split; [by apply Hlook|].
  clear Hrun Hreach Hinv. revert cf1 Hspares Hst Hinv1.
  induction os as [|o os IH]; intros cf1 Hspares Hst Hinv1.
  - exists cf1. split; [done|]. by apply Hlook.
  - destruct Hspares as [Ho Hrest].
    destruct (runOp_spec cf1 o Hinv1) as (cf' & r & Hrun & Hinv' & _).
    cbn [runOps]. rewrite Hrun. cbn [mbind option_bind fst].
    apply (IH cf'); [by apply (Hrest cf' r)| |done].
    by apply (runOp_keeps cf1 data o cf' r).
Qed.

End NoFalseNegatives.


Lemma no_false_negatives_witness :
  Filter.Lookup (H := sampleHash)
    {| Buckets := [[x00; x00; x00; x00]; [x05; x00; x00; x00]]; Count := 1; BucketPow := 1 |}
    [x05] = Some true ∧
  ∃ cf2,
    runOps (H := sampleHash)
      {| Buckets := [[x00; x00; x00; x00]; [x05; x00; x00; x00]]; Count := 1; BucketPow := 1 |}
      [OpInsert (λ _, 0) [x06]; OpDelete [x07]] = Some cf2 ∧
    Filter.Lookup (H := sampleHash) cf2 [x05] = Some true.
Proof.
  apply (no_false_negatives (H := sampleHash) (Hspec := sampleHash_spec)
           (λ _, 0) (NewFilter 8) [x05]).
  - apply reachable_new.
  - by vm_compute.
  - split.
    + intros hand Hev. vm_compute in Hev. discriminate.
    + intros cf' r Hrun. vm_compute in Hrun. injection Hrun as <- <-. split.
      * intros Hhome. vm_compute in Hhome. destruct Hhome as [Hfp _]. discriminate.
      * intros cf'' r' _. exact I.
Defined.

Section Collision.
Context {H : HashLayer} {Hspec : HashLayerSpec H}.

Lemma getIndexAndFingerprint_pow0 data :
  getIndexAndFingerprint data 0 = (0%Z, hashFingerprint data).
Proof. unfold getIndexAndFingerprint, mask. by rewrite Z.land_0_r. Qed.

Lemma getAltIndex_pow0 fp i : getAltIndex fp i 0 = 0%Z.
Proof. unfold getAltIndex, mask. by rewrite Z.land_0_r. Qed.

(** Whatever the hash layer, in the one-bucket filter the deletion of an
    input hides every input that has the same fingerprint. *)
Lemma Delete_of_collision rnd data data' :
  hashFingerprint data' = hashFingerprint data →
  Filter.Insert rnd (NewFilter 0) data
  = Some ({| Buckets := [[hashFingerprint data; x00; x00; x00]];
             Count := 1; BucketPow := 0 |}, true) ∧
  Filter.Delete {| Buckets := [[hashFingerprint data; x00; x00; x00]];
                   Count := 1; BucketPow := 0 |} data'
  = Some (NewFilter 0, true) ∧
  Filter.Lookup (NewFilter 0) data = Some false.
Proof.
  intros Hfp. pose proof (hashFingerprint_nonnull data) as Hne.
  change (NewFilter 0) with {| Buckets := [[x00; x00; x00; x00]]; Count := 0; BucketPow := 0 |}.
  unfold Filter.Insert, Filter.Delete, Filter.Lookup. cbn [BucketPow].
  rewrite !getIndexAndFingerprint_pow0, Hfp.
  unfold Filter.insert, Filter.delete, Bucket.insert, Bucket.delete,
    Bucket.getFingerprintIndex.
  cbn [Buckets Count BucketPow]. rewrite getAltIndex_pow0.
  change (Z.to_nat 0) with 0%nat. cbn [lookup list_lookup mbind option_bind].
  cbn [list_find fmap option_fmap option_map].
  rewrite (decide_True (P := x00 = nullFp)) by done.
  rewrite (decide_True (P := hashFingerprint data = hashFingerprint data)) by done.
  rewrite !(decide_False (P := x00 = hashFingerprint data)) by done.
  cbn [fmap option_fmap option_map prod_map fst snd].
  split; [done|]. split; [done|].
  rewrite decide_False by lia. by rewrite bool_decide_eq_false_2 by lia.
Qed.

End Collision.

(** C1, as the claim states it, fails.  On the one-bucket filter the input
    [[5]] is inserted with success; the deletion of the different input
    [[5; 1]], which has the same fingerprint and the same bucket, then
    returns true and empties the slot, and [Lookup] of [[5]] returns false
    although [[5]] was never deleted and no eviction took place.  A [Reset]
    after the insertion has the same effect. *)
Lemma no_false_negatives_collision :
  reachable (H := sampleHash) (NewFilter 0) ∧
  Filter.Insert (H := sampleHash) (λ _, 0) (NewFilter 0) [x05]
  = Some ({| Buckets := [[x05; x00; x00; x00]]; Count := 1; BucketPow := 0 |}, true) ∧
  [x05; x01] ≠ [x05] ∧
  Filter.Delete (H := sampleHash)
    {| Buckets := [[x05; x00; x00; x00]]; Count := 1; BucketPow := 0 |} [x05; x01]
  = Some ({| Buckets := [[x00; x00; x00; x00]]; Count := 0; BucketPow := 0 |}, true) ∧
  Filter.Lookup (H := sampleHash)
    {| Buckets := [[x00; x00; x00; x00]]; Count := 0; BucketPow := 0 |} [x05]
  = Some false ∧
  Filter.Lookup (H := sampleHash)
    (Filter.Reset {| Buckets := [[x05; x00; x00; x00]]; Count := 1; BucketPow := 0 |}) [x05]
  = Some false.
Proof.
  split; [apply reachable_new|]. split; [by vm_compute|]. split; [done|].
  split; [by vm_compute|]. split; by vm_compute.
Qed.


(** * Further properties *)

(** ** Filters of any shape: no index is out of range *)

Lemma trailingZerosFrom_clear fuel x k j :
  (k ≤ j < trailingZerosFrom fuel x k)%Z → Z.testbit x j = false.
Proof.
  revert k. induction fuel as [|fuel IH]; intros k; simpl; [lia|].
  destruct (Z.testbit x k) eqn:Hbit; [lia|].
  intros Hj. destruct (decide (j = k)) as [->|Hne]; [done|].
  apply (IH (k + 1)%Z). lia.
Qed.

(** [2 ^ TrailingZeros x] divides [x]. *)
Lemma TrailingZeros_divides x : (x mod 2 ^ TrailingZeros x = 0)%Z.
Proof.
  pose proof (TrailingZeros_range x) as Hr.
  apply Z.bits_inj'. intros n Hn. rewrite Z.bits_0.
  destruct (decide (n < TrailingZeros x)%Z) as [Hlt|Hge].
  - rewrite Z.mod_pow2_bits_low by lia.
    apply (trailingZerosFrom_clear 64 x 0). unfold TrailingZeros in Hlt. lia.
  - apply Z.mod_pow2_bits_high. lia.
Qed.

Lemma TrailingZeros_le x : (0 < x)%Z → (2 ^ TrailingZeros x ≤ x)%Z.
Proof.
  intros Hx. pose proof (TrailingZeros_range x) as Hr.
  pose proof (TrailingZeros_divides x) as Hdiv.
  assert (0 < 2 ^ TrailingZeros x)%Z as Hpos by (apply Z.pow_pos_nonneg; lia).
  pose proof (Z.div_mod x (2 ^ TrailingZeros x) ltac:(lia)) as Hdm.
  rewrite Hdiv in Hdm.
  assert (0 < x / 2 ^ TrailingZeros x)%Z by nia. nia.
Qed.

Lemma Forall_length_reshape {A} (l : list A) n m :
  length l = n * m → Forall (λ b, length b = m) (reshape (replicate n m) l).
Proof.
  revert l. induction n as [|n IH]; intros l Hlen; simpl; constructor.
  - rewrite length_take. lia.
  - apply IH. rewrite length_drop. lia.
Qed.

Lemma filterInv_shaped cf : filterInv cf → shaped cf.
Proof. intros [Hpow Hlen Hslots _]. split; [lia|]. split; [lia|done]. Qed.

Lemma decoded_shaped (bytes : list byte) :
  length bytes mod bucketSize = 0 → length bytes ≠ 0 → shaped (decoded bytes).
Proof.
  intros Hmod Hne. unfold shaped, decoded. cbn [Buckets BucketPow].
  assert (length bytes = length bytes / 4 * bucketSize) as Hlen.
  { unfold bucketSize in *. pose proof (Nat.div_mod_eq (length bytes) 4). lia. }
  split; [apply TrailingZeros_range|]. split.
  - rewrite length_reshape, length_replicate. apply TrailingZeros_le.
    unfold bucketSize in *. lia.
  - by apply Forall_length_reshape.
Qed.

Lemma shapedLike_refl cf : shaped cf → shapedLike cf cf.
Proof. by intros Hs. Qed.

Lemma shapedLike_trans cf0 cf1 cf2 :
  shapedLike cf0 cf1 → shapedLike cf1 cf2 → shapedLike cf0 cf2.
Proof. intros (_ & Hp1 & Hl1) (Hs & Hp2 & Hl2). split; [done|]. split; congruence. Qed.

Lemma shapedLike_write cf i j fp cf' :
  shaped cf → Buckets cf' = writeSlot (Buckets cf) i j fp →
  BucketPow cf' = BucketPow cf → shapedLike cf cf'.
Proof.
  intros (Hpow & Hlen & Hslots) Hbs Hbp. unfold shapedLike, shaped.
  rewrite Hbs, Hbp, length_writeSlot. split_and!; try done.
  by apply Forall_length_writeSlot.
Qed.

Lemma shaped_index cf i :
  shaped cf → (0 ≤ i < 2 ^ BucketPow cf)%Z → Z.to_nat i < length (Buckets cf).
Proof. intros (_ & Hlen & _) Hi. lia. Qed.

Section Shaped.
Context {H : HashLayer}.

Lemma insert_shaped cf fp i :
  shaped cf → (0 ≤ i < 2 ^ BucketPow cf)%Z →
  ∃ cf' ok, Filter.insert cf fp i = Some (cf', ok) ∧ shapedLike cf cf'.
Proof.
  intros Hs Hi.
  destruct (Filter_insert_spec cf fp i (shaped_index cf i Hs Hi))
    as [(j & cf' & Hins & _ & Hbs & Hbp & _)|[Hins _]].
  - exists cf', true. split; [done|]. by eapply shapedLike_write.
  - exists cf, false. split; [done|]. by apply shapedLike_refl.
Qed.

Lemma delete_shaped cf fp i :
  shaped cf → (0 ≤ i < 2 ^ BucketPow cf)%Z →
  ∃ cf' ok, Filter.delete cf fp i = Some (cf', ok) ∧ shapedLike cf cf'.
Proof.
  intros Hs Hi.
  destruct (Filter_delete_spec cf fp i (shaped_index cf i Hs Hi))
    as [(j & cf' & Hdel & _ & Hbs & Hbp & _)|[Hdel _]].
  - exists cf', true. split; [done|]. by eapply shapedLike_write.
  - exists cf, false. split; [done|]. by apply shapedLike_refl.
Qed.

Lemma reinsertLoop_shaped iters :
  ∀ rnd cf fp i, shaped cf → (0 ≤ i < 2 ^ BucketPow cf)%Z →
  ∃ cf' hand ok, Filter.reinsertLoop iters rnd cf fp i = Some (cf', hand, ok) ∧
    shapedLike cf cf'.
Proof.
  induction iters as [|iters IH]; intros rnd cf fp i Hs Hi.
  - exists cf, (fp, i), false. split; [done|]. by apply shapedLike_refl.
  - cbn [Filter.reinsertLoop].
    destruct (lookup_lt_is_Some_2 _ _ (shaped_index cf i Hs Hi)) as [b Hb].
    rewrite Hb. cbn [mbind option_bind].
    assert (Intn (rnd 0) bucketSize < length b) as Hj.
    { destruct Hs as (_ & _ & Hslots).
      rewrite (Forall_lookup_1 _ _ _ _ Hslots Hb). by apply Nat.mod_upper_bound. }
    destruct (lookup_lt_is_Some_2 _ _ Hj) as [y Hy]. rewrite Hy.
    cbn [mbind option_bind].
    set (cf1 := Filter.setSlot cf i (Intn (rnd 0) bucketSize) fp).
    assert (shapedLike cf cf1) as Hs1 by (by eapply shapedLike_write).
    pose proof Hs1 as (Hs1' & Hbp1 & _).
    assert (0 ≤ getAltIndex y i (BucketPow cf1) < 2 ^ BucketPow cf1)%Z as Hi'
      by (apply getAltIndex_range; apply Hs1').
    destruct (insert_shaped cf1 y _ Hs1' Hi') as (cf2 & ok & -> & Hs2).
    cbn [mbind option_bind]. destruct ok.
    + eexists cf2, _, true. split; [done|]. by eapply shapedLike_trans.
    + pose proof Hs2 as (Hs2' & Hbp2 & _).
      assert (0 ≤ getAltIndex y i (BucketPow cf1) < 2 ^ BucketPow cf2)%Z as Hi''
        by (by rewrite Hbp2).
      destruct (IH (rndTail rnd) cf2 y _ Hs2' Hi'') as (cf3 & hand & ok & -> & Hs3).
      exists cf3, hand, ok. split; [done|].
      eapply shapedLike_trans; [|exact Hs3]. by eapply shapedLike_trans.
Qed.

Lemma Insert_shaped rnd cf data :
  shaped cf → ∃ cf' ok, Filter.Insert rnd cf data = Some (cf', ok) ∧ shapedLike cf cf'.
Proof.
  intros Hs. pose proof Hs as (Hpow & _).
  pose proof (getIndexAndFingerprint_range data (BucketPow cf) Hpow) as Hi1.
  unfold Filter.Insert.
  destruct (getIndexAndFingerprint data (BucketPow cf)) as [i1 fp]. cbn [fst] in Hi1.
  destruct (insert_shaped cf fp i1 Hs Hi1) as (cf1 & ok1 & -> & Hs1).
  cbn [mbind option_bind]. destruct ok1; [by exists cf1, true|].
  pose proof Hs1 as (Hs1' & Hbp1 & _).
  assert (0 ≤ getAltIndex fp i1 (BucketPow cf1) < 2 ^ BucketPow cf1)%Z as Hi2
    by (apply getAltIndex_range; apply Hs1').
  destruct (insert_shaped cf1 fp _ Hs1' Hi2) as (cf2 & ok2 & -> & Hs2).
  cbn [mbind option_bind].
  destruct ok2; [exists cf2, true; split; [done|]; by eapply shapedLike_trans|].
  pose proof Hs2 as (Hs2' & Hbp2 & _).
  assert (0 ≤ randi (rnd 0%nat) i1 (getAltIndex fp i1 (BucketPow cf1)) < 2 ^ BucketPow cf2)%Z
    as Hir.
  { rewrite Hbp2. unfold randi. destruct (decide _); [|done]. by rewrite Hbp1. }
  destruct (reinsertLoop_shaped maxCuckooCount (rndTail rnd) cf2 fp _ Hs2' Hir)
    as (cf3 & hand & ok & Hrun & Hs3).
  unfold Filter.reinsert. rewrite Hrun. cbn [mbind option_bind].
  exists cf3, ok. split; [done|].
  eapply shapedLike_trans; [|exact Hs3]. by eapply shapedLike_trans.
Qed.

Lemma Delete_shaped cf data :
  shaped cf → ∃ cf' ok, Filter.Delete cf data = Some (cf', ok) ∧ shapedLike cf cf'.
Proof.
  intros Hs. pose proof Hs as (Hpow & _).
  pose proof (getIndexAndFingerprint_range data (BucketPow cf) Hpow) as Hi1.
  unfold Filter.Delete.
  destruct (getIndexAndFingerprint data (BucketPow cf)) as [i1 fp]. cbn [fst] in Hi1.
  destruct (delete_shaped cf fp i1 Hs Hi1) as (cf1 & ok1 & -> & Hs1).
  cbn [mbind option_bind]. destruct ok1; [by exists cf1, true|].
  pose proof Hs1 as (Hs1' & Hbp1 & _).
  assert (0 ≤ getAltIndex fp i1 (BucketPow cf1) < 2 ^ BucketPow cf1)%Z as Hi2
    by (apply getAltIndex_range; apply Hs1').
  destruct (delete_shaped cf1 fp _ Hs1' Hi2) as (cf2 & ok2 & -> & Hs2).
  exists cf2, ok2. split; [done|]. by eapply shapedLike_trans.
Qed.

(** [Lookup] on a filter of any shape: no panic, and the answer is whether
    one of the two candidate buckets holds the fingerprint. *)
Lemma Lookup_shaped cf data :
  shaped cf →
  ∃ found, Filter.Lookup cf data = Some found ∧ (found = true ↔ storedIn cf data).
Proof.
  intros Hs. pose proof Hs as (Hpow & _).
  pose proof (getIndexAndFingerprint_range data (BucketPow cf) Hpow) as Hi1.
  unfold Filter.Lookup, storedIn.
  destruct (getIndexAndFingerprint data (BucketPow cf)) as [i1 fp].
  cbn [fst snd] in *.
  assert (0 ≤ getAltIndex fp i1 (BucketPow cf) < 2 ^ BucketPow cf)%Z as Hi2
    by (by apply getAltIndex_range).
  destruct (lookup_lt_is_Some_2 _ _ (shaped_index cf i1 Hs Hi1)) as [b1 Hb1].
  destruct (lookup_lt_is_Some_2 _ _ (shaped_index cf _ Hs Hi2)) as [b2 Hb2].
  rewrite Hb1. cbn [mbind option_bind].
  assert (∀ i (b : bucket), Buckets cf !! Z.to_nat i = Some b →
            holds (Buckets cf) i fp ↔ (Bucket.getFingerprintIndex b fp > -1)%Z) as Hh.
  { intros i b Hb. rewrite Bucket_getFingerprintIndex_spec. unfold holds, slot.
    by rewrite Hb. }
  destruct (decide (Bucket.getFingerprintIndex b1 fp > -1)%Z) as [Hin|Hout].
  - exists true. split; [done|]. rewrite (Hh _ _ Hb1). split; [|done].
    intros _. by left.
  - rewrite Hb2. cbn [mbind option_bind]. eexists. split; [done|].
    rewrite (Hh _ _ Hb1), (Hh _ _ Hb2), bool_decide_eq_true.
    split; [by right|]. by intros [?|?].
Qed.

Lemma Reset_shaped cf : shaped cf → shapedLike cf (Filter.Reset cf).
Proof.
  intros (Hpow & Hlen & Hslots). unfold shapedLike, shaped.
  cbn [Filter.Reset Buckets BucketPow]. rewrite length_fmap. split_and!; try done.
  apply Forall_fmap. revert Hslots. apply List.Forall_impl.
  intros b Hb. unfold Bucket.reset, compose. by rewrite length_fmap.
Qed.

Lemma runOp_shaped cf o :
  shaped cf → ∃ cf' r, runOp cf o = Some (cf', r) ∧ shapedLike cf cf'.
Proof.
  intros Hs. destruct o as [rnd data|rnd data|data|]; cbn [runOp].
  - by apply Insert_shaped.
  - unfold Filter.InsertUnique.
    destruct (Lookup_shaped cf data Hs) as (found & -> & _). cbn [mbind option_bind].
    destruct found; [|by apply Insert_shaped].
    exists cf, false. split; [done|]. by apply shapedLike_refl.
  - by apply Delete_shaped.
  - exists (Filter.Reset cf), true. split; [done|]. by apply Reset_shaped.
Qed.

Lemma runOps_shaped cf os :
  shaped cf → ∃ cf', runOps cf os = Some cf' ∧ shapedLike cf cf'.
Proof.
  revert cf. induction os as [|o os IH]; intros cf Hs.
  - exists cf. split; [done|]. by apply shapedLike_refl.
  - destruct (runOp_shaped cf o Hs) as (cf1 & r & Hrun & Hs1).
    cbn [runOps]. rewrite Hrun. cbn [mbind option_bind fst].
    destruct (IH cf1 (proj1 Hs1)) as (cf2 & Hrun2 & Hs2).
    exists cf2. split; [done|]. by eapply shapedLike_trans.
Qed.

End Shaped.


Section ShapeSafety.
Context {H : HashLayer}.

(** X1. No index is ever out of range.  A new filter has the shape the
    operations rely on, and on a filter of that shape any sequence of
    [Insert], [InsertUnique], [Delete] and [Reset] calls runs without a
    panic, whatever the random draws and whatever the hash layer returns;
    it leaves [BucketPow], the number of buckets and the four slots of each
    bucket as they were, and [Lookup] and [Encode] then return too. *)
Theorem operations_never_panic :
  (∀ capacity, shaped (NewFilter capacity)) ∧
  ∀ cf os, shaped cf →
    ∃ cf', runOps cf os = Some cf' ∧
      BucketPow cf' = BucketPow cf ∧
      length (Buckets cf') = length (Buckets cf) ∧
      Forall (λ b : bucket, length b = bucketSize) (Buckets cf') ∧
      (∀ data, is_Some (Filter.Lookup cf' data)) ∧
      is_Some (Filter.Encode cf').
Proof.
  split; [intros capacity; apply filterInv_shaped, NewFilter_inv|].
  intros cf os Hs.
  destruct (runOps_shaped cf os Hs) as (cf' & Hrun & Hs' & Hbp & Hlen).
  exists cf'. split; [done|]. split; [done|]. split; [done|].
  split; [apply Hs'|]. split.
  - intros data. destruct (Lookup_shaped cf' data Hs') as (found & -> & _). by eexists.
  - rewrite Encode_concat by apply Hs'. by eexists.
Qed.

(** X2. A decoded filter can be used.  Whatever the number of buckets
    [Decode] builds, [2 ^ BucketPow] does not exceed it, so any sequence of
    calls on the decoded filter runs without a panic, keeps the number of
    buckets, and [Lookup] returns afterwards. *)
Theorem decoded_filter_is_usable (bytes : list byte) cf os :
  Decode bytes = Some (inr cf) →
  (2 ^ BucketPow cf ≤ Z.of_nat (length (Buckets cf)))%Z ∧
  ∃ cf', runOps cf os = Some cf' ∧
    length (Buckets cf') = length bytes / 4 ∧
    BucketPow cf' = BucketPow cf ∧
    ∀ data, is_Some (Filter.Lookup cf' data).
Proof.
  intros Hdec. apply Decode_inr in Hdec as (Hmod & Hne & ->).
  pose proof (decoded_shaped bytes Hmod Hne) as Hs.
  split; [apply Hs|].
  destruct (runOps_shaped _ os Hs) as (cf' & Hrun & Hs' & Hbp & Hlen).
  exists cf'. split; [done|]. rewrite Hlen, Decode_buckets_length.
  split; [done|]. split; [done|].
  intros data. destruct (Lookup_shaped cf' data Hs') as (found & -> & _). by eexists.
Qed.

(** X4. [Lookup] reads only the first [2 ^ BucketPow] buckets: two filters
    with the same [BucketPow] whose bucket arrays agree on those buckets
    give the same answer for every input.  What [Decode] puts in the
    buckets beyond them is counted but never found. *)
Theorem Lookup_reads_low_buckets cf (bs : list bucket) count data :
  (0 ≤ BucketPow cf)%Z →
  take (Z.to_nat (2 ^ BucketPow cf)) bs
  = take (Z.to_nat (2 ^ BucketPow cf)) (Buckets cf) →
  Filter.Lookup {| Buckets := bs; Count := count; BucketPow := BucketPow cf |} data
  = Filter.Lookup cf data.
Proof.
  intros Hpow Htake.
  assert (∀ i, (0 ≤ i < 2 ^ BucketPow cf)%Z →
            bs !! Z.to_nat i = Buckets cf !! Z.to_nat i) as Hsame.
  { intros i Hi.
    rewrite <- (lookup_take_lt bs (Z.to_nat (2 ^ BucketPow cf))) by lia.
    rewrite <- (lookup_take_lt (Buckets cf) (Z.to_nat (2 ^ BucketPow cf))) by lia.
    by rewrite Htake. }
  pose proof (getIndexAndFingerprint_range data (BucketPow cf) Hpow) as Hi1.
  unfold Filter.Lookup. cbn [Buckets BucketPow].
  destruct (getIndexAndFingerprint data (BucketPow cf)) as [i1 fp]. cbn [fst] in Hi1.
  rewrite (Hsame i1 Hi1).
  by rewrite (Hsame _ (getAltIndex_range fp i1 (BucketPow cf) Hpow)).
Qed.

End ShapeSafety.

(** X3. Decoding then encoding gives the input back: for every input that
    [Decode] accepts, [Encode] of the decoded filter returns exactly the
    bytes that were decoded. *)
Theorem Decode_Encode_roundtrip (bytes : list byte) cf :
  Decode bytes = Some (inr cf) → Filter.Encode cf = Some bytes.
Proof.
  intros Hdec. apply Decode_inr in Hdec as (Hmod & Hne & ->).
  assert (length bytes = length bytes / 4 * bucketSize) as Hlen.
  { unfold bucketSize in *. pose proof (Nat.div_mod_eq (length bytes) 4). lia. }
  rewrite Encode_concat by (by apply Forall_length_reshape).
  f_equal. by apply concat_reshape_uniform.
Qed.

Lemma operations_never_panic_witness :
  ∃ cf', runOps (H := sampleHash) (NewFilter 8)
           [OpInsert (λ _, 0) [x05]; OpDelete [x07]; OpInsertUnique (λ _, 1) [x05]; OpReset]
         = Some cf' ∧
    length (Buckets cf') = length (Buckets (NewFilter 8)).
Proof.
  destruct (operations_never_panic (H := sampleHash)) as [Hnew Hops].
  destruct (Hops (NewFilter 8)
              [OpInsert (λ _, 0) [x05]; OpDelete [x07]; OpInsertUnique (λ _, 1) [x05]; OpReset]
              (Hnew 8%Z)) as (cf' & Hrun & _ & Hlen & _).
  by exists cf'.
Defined.

Lemma decoded_filter_is_usable_witness :
  ∃ cf', runOps (H := sampleHash) (decoded (replicate 24 x07))
           [OpInsert (λ _, 0) [x05]; OpDelete [x07]] = Some cf' ∧
    length (Buckets cf') = 6.
Proof.
  assert (Decode (replicate 24 x07) = Some (inr (decoded (replicate 24 x07)))) as Hdec
    by (vm_compute; reflexivity).
  destruct (decoded_filter_is_usable (H := sampleHash) (replicate 24 x07)
              (decoded (replicate 24 x07)) [OpInsert (λ _, 0) [x05]; OpDelete [x07]] Hdec)
    as (_ & cf' & Hrun & Hlen & _).
  exists cf'. split; [exact Hrun|]. rewrite Hlen. vm_compute. reflexivity.
Defined.

Lemma Decode_Encode_roundtrip_witness :
  Filter.Encode (decoded [x01; x00; x03; x00; x00; x00; x07; x08; x09; x00; x00; x00])
  = Some [x01; x00; x03; x00; x00; x00; x07; x08; x09; x00; x00; x00].
Proof. apply Decode_Encode_roundtrip. by vm_compute. Defined.

Lemma Lookup_reads_low_buckets_witness :
  Filter.Lookup (H := sampleHash)
    {| Buckets := [[x00; x00; x00; x00]; [x00; x00; x00; x00]; [x05; x00; x00; x00]];
       Count := 1; BucketPow := 0 |} [x05]
  = Filter.Lookup (H := sampleHash)
      {| Buckets := [[x00; x00; x00; x00]]; Count := 0; BucketPow := 0 |} [x05].
Proof.
  apply (Lookup_reads_low_buckets (H := sampleHash)
           {| Buckets := [[x00; x00; x00; x00]]; Count := 0; BucketPow := 0 |}).
  - simpl. lia.
  - by vm_compute.
Defined.


(** ** Reachable filters: how the operations compose *)

Lemma const_fmap_replicate {A B} (y : B) (l : list A) :
  (λ _, y) <$> l = replicate (length l) y.
Proof. induction l as [|x l IH]; [done|]. cbn [fmap list_fmap length replicate]. by f_equal. Qed.

Lemma Reset_buckets (bs : list bucket) :
  Forall (λ b : bucket, length b = bucketSize) bs →
  Bucket.reset <$> bs = replicate (length bs) (replicate bucketSize nullFp).
Proof.
  induction 1 as [|b bs Hb Hall IH]; [done|].
  cbn [fmap list_fmap length replicate]. f_equal; [|exact IH].
  unfold Bucket.reset. by rewrite const_fmap_replicate, Hb.
Qed.

(** The capacity [2 ^ (p + 2)] gives [2 ^ p] buckets. *)
Lemma NewFilter_of_pow p :
  (0 ≤ p ≤ 61)%Z →
  NewFilter (2 ^ (p + 2))
  = {| Buckets := replicate (Z.to_nat (2 ^ p)) (replicate bucketSize nullFp);
       Count := 0; BucketPow := p |}.
Proof.
  intros Hp. unfold NewFilter, getNextPow2.
  rewrite Z.log2_up_pow2 by lia.
  rewrite wrap_small; last first.
  { split; [apply Z.pow_nonneg; lia|]. apply Z.pow_lt_mono_r; lia. }
  assert (2 ^ (p + 2) / Z.of_nat bucketSize = 2 ^ p)%Z as ->.
  { change (Z.of_nat bucketSize) with (2 ^ 2)%Z.
    rewrite <- Z.pow_sub_r by lia. f_equal. lia. }
  assert (0 < 2 ^ p)%Z by (apply Z.pow_pos_nonneg; lia).
  rewrite decide_False by lia. by rewrite TrailingZeros_pow2 by lia.
Qed.

Lemma filterInv_same_length cf cf' :
  filterInv cf → filterInv cf' → BucketPow cf' = BucketPow cf →
  length (Buckets cf') = length (Buckets cf).
Proof. intros [_ Hlen _ _] [_ Hlen' _ _] Hbp. rewrite Hbp in Hlen'. lia. Qed.

Lemma elem_of_concat_lookup {A} (bs : list (list A)) i b x :
  bs !! i = Some b → x ∈ b → x ∈ concat bs.
Proof.
  revert i. induction bs as [|b0 bs IH]; intros i Hb Hx; [done|].
  cbn [concat]. apply elem_of_app. destruct i as [|i].
  - left. by simplify_eq/=.
  - right. by apply (IH i).
Qed.

Lemma holds_elem_of bs i fp :
  holds bs i fp → fp ≠ nullFp → fp ∈ storedFps bs.
Proof.
  intros [j Hj] Hne. unfold slot in Hj.
  destruct (bs !! Z.to_nat i) as [b|] eqn:Hb; [|done]. simpl in Hj.
  unfold storedFps. apply list_elem_of_filter. split; [done|].
  apply (elem_of_concat_lookup bs (Z.to_nat i) b); [done|].
  by apply (list_elem_of_lookup_2 b j).
Qed.

Section Composition.
Context {H : HashLayer} {Hspec : HashLayerSpec H}.

Lemma storedIn_unfold cf data :
  storedIn cf data ↔
  holds (Buckets cf) (getIndexAndFingerprint data (BucketPow cf)).1
    (getIndexAndFingerprint data (BucketPow cf)).2 ∨
  holds (Buckets cf)
    (getAltIndex (getIndexAndFingerprint data (BucketPow cf)).2
       (getIndexAndFingerprint data (BucketPow cf)).1 (BucketPow cf))
    (getIndexAndFingerprint data (BucketPow cf)).2.
Proof. unfold storedIn. by destruct (getIndexAndFingerprint data (BucketPow cf)). Qed.

Lemma storedIn_same_pow cf cf' data :
  BucketPow cf' = BucketPow cf →
  storedIn cf' data ↔
  holds (Buckets cf') (getIndexAndFingerprint data (BucketPow cf)).1
    (getIndexAndFingerprint data (BucketPow cf)).2 ∨
  holds (Buckets cf')
    (getAltIndex (getIndexAndFingerprint data (BucketPow cf)).2
       (getIndexAndFingerprint data (BucketPow cf)).1 (BucketPow cf))
    (getIndexAndFingerprint data (BucketPow cf)).2.
Proof. intros Hbp. rewrite storedIn_unfold. by rewrite Hbp. Qed.

(** A filter whose count is 0 stores no input. *)
Lemma empty_stores_nothing cf data :
  filterInv cf → Count cf = 0%Z → ¬ storedIn cf data.
Proof.
  intros Hinv Hc Hst. rewrite (inv_count _ Hinv) in Hc.
  assert (storedFps (Buckets cf) = []) as Hnil.
  { unfold occupied in Hc. destruct (storedFps (Buckets cf)); [done|]. simpl in Hc. lia. }
  apply storedIn_unfold in Hst.
  assert ((getIndexAndFingerprint data (BucketPow cf)).2 ∈ storedFps (Buckets cf)) as Hin.
  { destruct Hst as [Hh|Hh]; (eapply holds_elem_of; [exact Hh|]);
      apply hashFingerprint_nonnull. }
  rewrite Hnil in Hin. by apply elem_of_nil in Hin.
Qed.

Lemma Lookup_true cf data :
  filterInv cf → storedIn cf data → Filter.Lookup cf data = Some true.
Proof.
  intros Hinv Hst. destruct (Lookup_spec cf data Hinv) as (found & -> & Hiff).
  f_equal. by apply Hiff.
Qed.

Lemma Lookup_false cf data :
  filterInv cf → ¬ storedIn cf data → Filter.Lookup cf data = Some false.
Proof.
  intros Hinv Hst. destruct (Lookup_spec cf data Hinv) as (found & -> & Hiff).
  f_equal. destruct found; [|done]. destruct Hst. by apply Hiff.
Qed.

Lemma Delete_absent cf data :
  filterInv cf → ¬ storedIn cf data → Filter.Delete cf data = Some (cf, false).
Proof.
  intros Hinv Hst.
  destruct (Delete_spec cf data Hinv)
    as [(i & j & cf' & _ & Hor & _ & Hslot & _)|(Hrun & _)]; [|done].
  destruct Hst. apply storedIn_unfold.
  destruct Hor as [->| ->]; [left|right]; by exists j.
Qed.

Lemma sameHome_unfold pow data data' :
  sameHome pow data data' ↔
  (getIndexAndFingerprint data' pow).2 = (getIndexAndFingerprint data pow).2 ∧
  ((getIndexAndFingerprint data' pow).1 = (getIndexAndFingerprint data pow).1 ∨
   (getIndexAndFingerprint data' pow).1
   = getAltIndex (getIndexAndFingerprint data pow).2
       (getIndexAndFingerprint data pow).1 pow).
Proof. unfold sameHome. by rewrite copyOf_unfold. Qed.

(** An input that shares the home of a stored input is stored too. *)
Lemma sameHome_storedIn cf data data' :
  filterInv cf → sameHome (BucketPow cf) data data' →
  storedIn cf data → storedIn cf data'.
Proof.
  intros Hinv Hhome Hst. pose proof (inv_pow _ Hinv) as Hpow.
  pose proof (proj1 (sameHome_unfold _ _ _) Hhome) as [Hfp Hor].
  apply storedIn_unfold in Hst. apply storedIn_unfold. rewrite Hfp.
  pose proof (getIndexAndFingerprint_range data (BucketPow cf)) as Hi1.
  destruct Hor as [->| ->]; [done|].
  rewrite getAltIndex_back by lia. destruct Hst; [by right|by left].
Qed.

Lemma sameHome_refl pow data : sameHome pow data data.
Proof. apply sameHome_unfold. split; [done|by left]. Qed.

End Composition.


Section ComposedProperties.
Context {H : HashLayer} {Hspec : HashLayerSpec H}.

(** X5. [Delete] agrees with [Lookup]: on a reachable filter [Delete] of an
    input returns true exactly when [Lookup] of that input returned true
    just before. *)
Theorem Delete_agrees_with_Lookup cf data :
  reachable cf →
  ∃ found cf', Filter.Lookup cf data = Some found ∧
    Filter.Delete cf data = Some (cf', found).
Proof.
  intros Hreach. pose proof (reachable_inv cf Hreach) as Hinv.
  destruct (Delete_spec cf data Hinv)
    as [(i & j & cf' & Hrun & Hor & _ & Hslot & _)|(Hrun & Hno1 & Hno2)].
  - exists true, cf'. split; [|done]. apply Lookup_true; [done|].
    apply storedIn_unfold. destruct Hor as [->| ->]; [left|right]; by exists j.
  - exists false, cf. split; [|done]. apply Lookup_false; [done|].
    rewrite storedIn_unfold. by intros [?|?].
Qed.

(** X6. Insert then delete: after an [Insert] of an input that returned
    true on a reachable filter, [Delete] of the same input returns true, the
    count is what it was before the insertion, and the stored fingerprints
    are those stored before the insertion (eviction may have moved them). *)
Theorem Insert_then_Delete rnd cf data cf1 :
  reachable cf → Filter.Insert rnd cf data = Some (cf1, true) →
  ∃ cf2, Filter.Delete cf1 data = Some (cf2, true) ∧
    Count cf2 = Count cf ∧
    storedFps (Buckets cf2) ≡ₚ storedFps (Buckets cf) ∧
    length (Buckets cf2) = length (Buckets cf).
Proof.
  intros Hreach Hrun. pose proof (reachable_inv cf Hreach) as Hinv.
  pose proof (Insert_stores rnd cf data cf1 Hinv Hrun) as Hst.
  destruct (Insert_spec rnd cf data Hinv) as (cf' & ok & Hrun' & Hpost).
  rewrite Hrun in Hrun'. simplify_eq.
  destruct Hpost as (_ & Hinv1 & Hbp & Hc & Hperm & _).
  destruct (Delete_spec cf' data Hinv1)
    as [(i & j & cf2 & Hdel & _ & _ & Hslot & Hbs & Hbp2 & Hc2 & _ & Hinv2)|(_ & Hno1 & Hno2)].
  - exists cf2. split; [done|]. split; [lia|]. split.
    + pose proof (storedFps_writeSlot _ _ _ _ nullFp Hslot) as Hw.
      rewrite filter_single_null, filter_single_nonnull in Hw
        by apply hashFingerprint_nonnull.
      rewrite <- Hbs in Hw. simpl in Hw.
      apply (Permutation_cons_inv (a := hashFingerprint data)).
      etrans; [exact Hw|]. exact Hperm.
    + rewrite (filterInv_same_length cf' cf2) by done.
      by apply filterInv_same_length.
  - destruct (proj1 (storedIn_unfold cf' data) Hst); done.
Qed.

(** X7. A successful [Insert] adds the fingerprint of its input and nothing
    else: the stored fingerprints afterwards are those stored before plus
    that one, the number of buckets is unchanged, and every input that
    [Lookup] found before is still found. *)
Theorem Insert_adds_one_fingerprint rnd cf data cf' :
  reachable cf → Filter.Insert rnd cf data = Some (cf', true) →
  storedFps (Buckets cf')
  ≡ₚ (getIndexAndFingerprint data (BucketPow cf)).2 :: storedFps (Buckets cf) ∧
  length (Buckets cf') = length (Buckets cf) ∧
  ∀ data0, Filter.Lookup cf data0 = Some true → Filter.Lookup cf' data0 = Some true.
Proof.
  intros Hreach Hrun. pose proof (reachable_inv cf Hreach) as Hinv.
  destruct (Insert_spec rnd cf data Hinv) as (cf'' & ok & Hrun' & Hpost).
  rewrite Hrun in Hrun'. simplify_eq.
  destruct Hpost as (Hev & Hinv' & Hbp & _ & Hperm & _).
  split; [done|]. split; [by apply filterInv_same_length|].
  intros data0 Hlook. apply Lookup_true; [done|].
  apply (Insert_keeps rnd cf data0 data cf'' true); [done| | |done].
  - destruct (Lookup_spec cf data0 Hinv) as (found & Hl & Hiff).
    rewrite Hl in Hlook. apply Hiff. by simplify_eq.
  - intros hand Hhand. by rewrite Hev in Hhand.
Qed.

(** X8. [Insert] fails only on two full buckets.  On a reachable filter, if
    [Insert] returns false then both candidate buckets of the input were
    full before the call; and if one of them has an empty slot, [Insert]
    returns true whatever the random draws, with the same resulting filter,
    in which one empty slot of a candidate bucket now holds the
    fingerprint. *)
Theorem Insert_fails_only_when_full cf data :
  reachable cf →
  let fp := (getIndexAndFingerprint data (BucketPow cf)).2 in
  let i1 := (getIndexAndFingerprint data (BucketPow cf)).1 in
  let i2 := getAltIndex fp i1 (BucketPow cf) in
  (∀ rnd cf', Filter.Insert rnd cf data = Some (cf', false) →
     full (Buckets cf) i1 ∧ full (Buckets cf) i2) ∧
  (holds (Buckets cf) i1 nullFp ∨ holds (Buckets cf) i2 nullFp →
   ∃ cf' i j, (i = i1 ∨ i = i2) ∧
     slot (Buckets cf) (Z.to_nat i) j = Some nullFp ∧
     Buckets cf' = writeSlot (Buckets cf) (Z.to_nat i) j fp ∧
     ∀ rnd, Filter.Insert rnd cf data = Some (cf', true)).
Proof.
  intros Hreach. pose proof (reachable_inv cf Hreach) as Hinv.
  pose proof (inv_pow _ Hinv) as Hpow.
  pose proof (getIndexAndFingerprint_range data (BucketPow cf)) as Hi1.
  unfold Filter.Insert.
  destruct (getIndexAndFingerprint data (BucketPow cf)) as [i1 fp].
  cbn [fst snd] in *. cbn zeta.
  assert (0 ≤ getAltIndex fp i1 (BucketPow cf) < 2 ^ BucketPow cf)%Z as Hi2
    by (apply getAltIndex_range; lia).
  destruct (Filter_insert_spec cf fp i1 (filterInv_index cf i1 Hinv ltac:(lia)))
    as [(j & cf1 & -> & Hslot & Hbs & _)|[-> Hfull1]]; cbn [mbind option_bind].
  { split; [intros rnd cf' Hrun; by simplify_eq|].
    intros _. exists cf1, i1, j. split; [by left|]. done. }
  destruct (Filter_insert_spec cf fp _ (filterInv_index cf _ Hinv Hi2))
    as [(j & cf2 & -> & Hslot & Hbs & _)|[-> Hfull2]]; cbn [mbind option_bind].
  { split; [intros rnd cf' Hrun; by simplify_eq|].
    intros _. exists cf2, (getAltIndex fp i1 (BucketPow cf)), j. split; [by right|]. done. }
  split; [done|].
  intros [[j Hj]|[j Hj]].
  - by destruct (full_slot_nonnull _ _ _ _ Hfull1 Hj).
  - by destruct (full_slot_nonnull _ _ _ _ Hfull2 Hj).
Qed.

(** X9. The capacity bound.  On a reachable filter the count never exceeds
    four times the number of buckets, and when it equals it every [Insert]
    returns false, whatever the input and the random draws. *)
Theorem full_filter_rejects cf :
  reachable cf →
  (Count cf ≤ 4 * Z.of_nat (length (Buckets cf)))%Z ∧
  ((Count cf = 4 * Z.of_nat (length (Buckets cf)))%Z →
   ∀ rnd data, ∃ cf', Filter.Insert rnd cf data = Some (cf', false)).
Proof.
  intros Hreach. pose proof (reachable_inv cf Hreach) as Hinv.
  assert (∀ cf, filterInv cf → (Count cf ≤ 4 * Z.of_nat (length (Buckets cf)))%Z) as Hb.
  { intros cf0 Hinv0. rewrite (inv_count _ Hinv0).
    pose proof (storedFps_length_bound _ _ (inv_slots _ Hinv0)) as Hle.
    unfold bucketSize in Hle. lia. }
  split; [by apply Hb|].
  intros Hfull rnd data.
  destruct (Insert_spec rnd cf data Hinv) as (cf' & ok & Hrun & Hpost).
  exists cf'. destruct ok; [|done].
  destruct Hpost as (_ & Hinv' & Hbp & Hc & _).
  pose proof (Hb cf' Hinv') as Hb'.
  rewrite (filterInv_same_length cf cf') in Hb' by done. lia.
Qed.

(** X10. An [Insert] that returns false may still have stored its input.
    On a reachable filter, after such a call either the fingerprint that
    was dropped is a copy of the fingerprint of the input, or [Lookup] of
    the input returns true. *)
Theorem failed_Insert_may_store rnd cf data cf' :
  reachable cf → Filter.Insert rnd cf data = Some (cf', false) →
  ∃ hand, evicted rnd cf data = Some hand ∧
    (copyOf (BucketPow cf) data hand ∨ Filter.Lookup cf' data = Some true).
Proof.
  intros Hreach Hrun. pose proof (reachable_inv cf Hreach) as Hinv.
  destruct (Insert_spec rnd cf data Hinv) as (cf'' & ok & Hrun' & Hpost).
  rewrite Hrun in Hrun'. simplify_eq.
  destruct Hpost as (hand & Hev & Hinv' & Hbp & _ & _ & _ & _ & _ & Htr).
  exists hand. split; [done|].
  destruct (Htr _ _ _ (homePair_data cf data Hinv)) as [Hh|[Hh|(i & Hi & Hor)]].
  - right. right. eexists. split; [done|]. by left.
  - right. apply Lookup_true; [done|].
    apply (proj2 (storedIn_same_pow cf cf'' data Hbp)). by left.
  - right. apply Lookup_true; [done|].
    apply (proj2 (storedIn_same_pow cf cf'' data Hbp)). by right.
  - left. apply copyOf_unfold. by simplify_eq.
Qed.

End ComposedProperties.


Lemma Delete_agrees_with_Lookup_witness :
  ∃ found cf', Filter.Lookup (H := sampleHash) fullFilter [x06] = Some found ∧
    Filter.Delete (H := sampleHash) fullFilter [x06] = Some (cf', found).
Proof.
  apply (Delete_agrees_with_Lookup (H := sampleHash) (Hspec := sampleHash_spec)).
  apply fullFilter_reachable.
Defined.

Lemma Insert_then_Delete_witness :
  ∃ cf2, Filter.Delete (H := sampleHash)
           {| Buckets := [[x05; x00; x00; x00]]; Count := 1; BucketPow := 0 |} [x05]
         = Some (cf2, true) ∧
    Count cf2 = Count (NewFilter 0).
Proof.
  destruct (Insert_then_Delete (H := sampleHash) (Hspec := sampleHash_spec)
              (λ _, 0) (NewFilter 0) [x05]
              {| Buckets := [[x05; x00; x00; x00]]; Count := 1; BucketPow := 0 |})
    as (cf2 & Hdel & Hc & _).
  - apply reachable_new.
  - vm_compute. reflexivity.
  - exists cf2. split; [exact Hdel|exact Hc].
Defined.

Lemma Insert_adds_one_fingerprint_witness :
  storedFps [[x05; x00; x00; x00]]
  ≡ₚ (getIndexAndFingerprint (H := sampleHash) [x05] (BucketPow (NewFilter 0))).2
     :: storedFps (Buckets (NewFilter 0)).
Proof.
  destruct (Insert_adds_one_fingerprint (H := sampleHash) (Hspec := sampleHash_spec)
              (λ _, 0) (NewFilter 0) [x05]
              {| Buckets := [[x05; x00; x00; x00]]; Count := 1; BucketPow := 0 |})
    as (Hperm & _ & _).
  - apply reachable_new.
  - vm_compute. reflexivity.
  - exact Hperm.
Defined.

Lemma Insert_fails_only_when_full_witness :
  full (Buckets fullFilter)
    (getIndexAndFingerprint (H := sampleHash) [x09] (BucketPow fullFilter)).1.
Proof.
  destruct (Insert_fails_only_when_full (H := sampleHash) (Hspec := sampleHash_spec)
              fullFilter [x09] fullFilter_reachable) as [Hfail _].
  destruct (Hfail churnDraws
              {| Buckets := [[x09; x05; x07; x08]]; Count := 4; BucketPow := 0 |})
    as [Hfull _].
  - vm_compute. reflexivity.
  - exact Hfull.
Defined.

Lemma full_filter_rejects_witness :
  ∃ cf', Filter.Insert (H := sampleHash) churnDraws fullFilter [x09] = Some (cf', false).
Proof.
  destruct (full_filter_rejects (H := sampleHash) (Hspec := sampleHash_spec)
              fullFilter fullFilter_reachable) as [_ Hrej].
  apply Hrej. vm_compute. reflexivity.
Defined.

Lemma failed_Insert_may_store_witness :
  ∃ hand, evicted (H := sampleHash) churnDraws fullFilter [x09] = Some hand ∧
    (copyOf (H := sampleHash) (BucketPow fullFilter) [x09] hand ∨
     Filter.Lookup (H := sampleHash)
       {| Buckets := [[x09; x05; x07; x08]]; Count := 4; BucketPow := 0 |} [x09]
     = Some true).
Proof.
  apply (failed_Insert_may_store (H := sampleHash) (Hspec := sampleHash_spec)).
  - apply fullFilter_reachable.
  - vm_compute. reflexivity.
Defined.

(** A [delete] on any filter: the count goes down by one unless it is 0. *)
Lemma Filter_delete_count cf fp i cf' ok :
  (0 ≤ Count cf < 2 ^ 64)%Z → Filter.delete cf fp i = Some (cf', ok) →
  (ok = false → cf' = cf) ∧
  (ok = true → Count cf' = Z.max 0 (Count cf - 1) ∧ BucketPow cf' = BucketPow cf).
Proof.
  intros Hc. unfold Filter.delete.
  destruct (Buckets cf !! Z.to_nat i) as [b|]; [|done]. cbn [mbind option_bind].
  destruct (Bucket.delete b fp) as [b' [|]]; intros Heq; simplify_eq.
  - split; [done|]. intros _. cbn [Count BucketPow]. split; [|done].
    destruct (decide (Count cf > 0)%Z); [rewrite wrap_small by lia|]; lia.
  - split; [done|]. done.
Qed.

Section MoreProperties.
Context {H : HashLayer} {Hspec : HashLayerSpec H}.

(** X11. [Reset] gives back a new filter: on a reachable filter it leaves
    every slot of every bucket empty, the count 0 and [BucketPow] and the
    number of buckets as they were, which is the filter [NewFilter] builds
    for some capacity; [Lookup] then returns false for every input. *)
Theorem Reset_restores_new_filter cf :
  reachable cf →
  Buckets (Filter.Reset cf)
  = replicate (length (Buckets cf)) (replicate bucketSize nullFp) ∧
  Count (Filter.Reset cf) = 0%Z ∧
  BucketPow (Filter.Reset cf) = BucketPow cf ∧
  (∃ capacity, Filter.Reset cf = NewFilter capacity) ∧
  ∀ data, Filter.Lookup (Filter.Reset cf) data = Some false.
Proof.
  intros Hreach. pose proof (reachable_inv cf Hreach) as Hinv.
  pose proof (Reset_buckets _ (inv_slots _ Hinv)) as Hbs.
  split; [exact Hbs|]. split; [done|]. split; [done|]. split.
  - exists (2 ^ (BucketPow cf + 2))%Z.
    rewrite NewFilter_of_pow by apply (inv_pow _ Hinv).
    unfold Filter.Reset. rewrite Hbs. f_equal. f_equal.
    pose proof (inv_len _ Hinv). lia.
  - intros data. apply Lookup_false; [by apply Reset_inv|].
    apply empty_stores_nothing; [by apply Reset_inv|done].
Qed.

(** X12. An empty filter has no members: on a reachable filter whose
    [CountEntries] is 0, [Lookup] returns false and [Delete] returns false
    and changes nothing, for every input. *)
Theorem empty_filter_has_no_members cf data :
  reachable cf → Filter.CountEntries cf = 0%Z →
  Filter.Lookup cf data = Some false ∧ Filter.Delete cf data = Some (cf, false).
Proof.
  intros Hreach Hc. pose proof (reachable_inv cf Hreach) as Hinv.
  pose proof (empty_stores_nothing cf data Hinv Hc) as Hno.
  split; [by apply Lookup_false|by apply Delete_absent].
Qed.

(** X13. A successful [InsertUnique]: when it returns true on a reachable
    filter, [Lookup] of the input returned false before the call and
    returns true after it, and the count has gone up by exactly 1. *)
Theorem InsertUnique_success rnd cf data cf' :
  reachable cf → Filter.InsertUnique rnd cf data = Some (cf', true) →
  Filter.Lookup cf data = Some false ∧
  Filter.Lookup cf' data = Some true ∧
  Count cf' = (Count cf + 1)%Z.
Proof.
  intros Hreach Hrun. pose proof (reachable_inv cf Hreach) as Hinv.
  unfold Filter.InsertUnique in Hrun.
  destruct (Lookup_spec cf data Hinv) as (found & Hl & _).
  rewrite Hl in Hrun. cbn [mbind option_bind] in Hrun.
  destruct found; [by simplify_eq|].
  split; [done|].
  pose proof (Insert_stores rnd cf data cf' Hinv Hrun) as Hst.
  destruct (Insert_spec rnd cf data Hinv) as (cf'' & ok & Hrun' & Hpost).
  rewrite Hrun in Hrun'. simplify_eq.
  destruct Hpost as (_ & Hinv' & _ & Hc & _).
  split; [|done]. by apply Lookup_true.
Qed.

(** X14. [InsertUnique] refuses what [Lookup] finds, also by collision:
    after an [Insert] that returned true, every input with the same
    fingerprint and the same candidate buckets (the inserted input itself
    is one) is found by [Lookup], and [InsertUnique] of it returns false
    and leaves the filter as it is. *)
Theorem InsertUnique_refuses_stored rnd cf data cf1 data' rnd' :
  reachable cf → Filter.Insert rnd cf data = Some (cf1, true) →
  sameHome (BucketPow cf) data data' →
  Filter.Lookup cf1 data' = Some true ∧
  Filter.InsertUnique rnd' cf1 data' = Some (cf1, false).
Proof.
  intros Hreach Hrun Hhome. pose proof (reachable_inv cf Hreach) as Hinv.
  pose proof (Insert_stores rnd cf data cf1 Hinv Hrun) as Hst.
  destruct (Insert_spec rnd cf data Hinv) as (cf'' & ok & Hrun' & Hpost).
  rewrite Hrun in Hrun'. simplify_eq.
  destruct Hpost as (_ & Hinv1 & Hbp & _).
  rewrite <- Hbp in Hhome.
  pose proof (sameHome_storedIn cf'' data data' Hinv1 Hhome Hst) as Hst'.
  pose proof (Lookup_true cf'' data' Hinv1 Hst') as Hl.
  split; [done|]. unfold Filter.InsertUnique. by rewrite Hl.
Qed.

(** X15. The count never goes below 0.  On any filter, also one built by
    [CopyFilter] with a count that does not match its buckets, a [Delete]
    that returns true takes 1 off the count unless the count is 0, in which
    case it stays 0; a [Delete] that returns false changes nothing. *)
Theorem Delete_count_never_underflows cf data cf' ok :
  (0 ≤ Count cf < 2 ^ 64)%Z → Filter.Delete cf data = Some (cf', ok) →
  (ok = false → cf' = cf) ∧
  (ok = true → Count cf' = Z.max 0 (Count cf - 1) ∧ BucketPow cf' = BucketPow cf).
Proof.
  intros Hc. unfold Filter.Delete.
  destruct (getIndexAndFingerprint data (BucketPow cf)) as [i1 fp].
  destruct (Filter.delete cf fp i1) as [[cf1 ok1]|] eqn:Hd1; [|done].
  cbn [mbind option_bind].
  destruct (Filter_delete_count cf fp i1 cf1 ok1 Hc Hd1) as [Hno Hyes].
  destruct ok1.
  - intros Heq. simplify_eq. split; [done|]. by intros _; apply Hyes.
  - rewrite (Hno eq_refl). intros Hd2.
    by apply (Filter_delete_count cf fp _ cf' ok Hc Hd2).
Qed.

End MoreProperties.

Lemma Reset_restores_new_filter_witness :
  ∃ capacity, Filter.Reset fullFilter = NewFilter capacity.
Proof.
  destruct (Reset_restores_new_filter (H := sampleHash) (Hspec := sampleHash_spec)
              fullFilter fullFilter_reachable) as (_ & _ & _ & Hnew & _).
  exact Hnew.
Defined.

Lemma empty_filter_has_no_members_witness :
  Filter.Lookup (H := sampleHash) (NewFilter 1000) [x05; x06] = Some false ∧
  Filter.Delete (H := sampleHash) (NewFilter 1000) [x05; x06]
  = Some (NewFilter 1000, false).
Proof.
  apply (empty_filter_has_no_members (H := sampleHash) (Hspec := sampleHash_spec)).
  - apply reachable_new.
  - reflexivity.
Defined.

Lemma InsertUnique_success_witness :
  Filter.Lookup (H := sampleHash) (NewFilter 0) [x05] = Some false ∧
  Filter.Lookup (H := sampleHash)
    {| Buckets := [[x05; x00; x00; x00]]; Count := 1; BucketPow := 0 |} [x05]
  = Some true ∧
  Count {| Buckets := [[x05; x00; x00; x00]]; Count := 1; BucketPow := 0 |}
  = (Count (NewFilter 0) + 1)%Z.
Proof.
  apply (InsertUnique_success (H := sampleHash) (Hspec := sampleHash_spec) (λ _, 0)).
  - apply reachable_new.
  - vm_compute. reflexivity.
Defined.

Lemma InsertUnique_refuses_stored_witness :
  Filter.Lookup (H := sampleHash)
    {| Buckets := [[x05; x00; x00; x00]]; Count := 1; BucketPow := 0 |} [x05; x01]
  = Some true ∧
  Filter.InsertUnique (H := sampleHash) (λ _, 3)
    {| Buckets := [[x05; x00; x00; x00]]; Count := 1; BucketPow := 0 |} [x05; x01]
  = Some ({| Buckets := [[x05; x00; x00; x00]]; Count := 1; BucketPow := 0 |}, false).
Proof.
  apply (InsertUnique_refuses_stored (H := sampleHash) (Hspec := sampleHash_spec)
           (λ _, 0) (NewFilter 0) [x05]).
  - apply reachable_new.
  - vm_compute. reflexivity.
  - vm_compute. split; [reflexivity|left; reflexivity].
Defined.

Lemma Delete_count_never_underflows_witness :
  Count {| Buckets := [[x00; x00; x00; x00]]; Count := 0; BucketPow := 0 |}
  = Z.max 0 (Count (CopyFilter [[x05; x00; x00; x00]] 0 0) - 1) ∧
  BucketPow {| Buckets := [[x00; x00; x00; x00]]; Count := 0; BucketPow := 0 |}
  = BucketPow (CopyFilter [[x05; x00; x00; x00]] 0 0).
Proof.
  destruct (Delete_count_never_underflows (H := sampleHash)
              (CopyFilter [[x05; x00; x00; x00]] 0 0) [x05]
              {| Buckets := [[x00; x00; x00; x00]]; Count := 0; BucketPow := 0 |} true)
    as [_ Hyes].
  - vm_compute. split; [discriminate|reflexivity].
  - vm_compute. reflexivity.
  - apply Hyes. reflexivity.
Defined.


(** ** Bounded work, the effect of a deletion, the requested capacity *)

Section Bounded.
Context {H : HashLayer}.

Lemma reinsertLoop_draws iters :
  ∀ rnd rnd' cf fp i, (∀ k, k < iters → rnd k = rnd' k) →
  Filter.reinsertLoop iters rnd cf fp i = Filter.reinsertLoop iters rnd' cf fp i.
Proof.
  induction iters as [|iters IH]; intros rnd rnd' cf fp i Hsame; [done|].
  cbn [Filter.reinsertLoop]. rewrite <- (Hsame 0) by lia.
  destruct (Buckets cf !! Z.to_nat i) as [b|]; [|done]. cbn [mbind option_bind].
  destruct (b !! Intn (rnd 0) bucketSize) as [y|]; [|done]. cbn [mbind option_bind].
  destruct (Filter.insert _ y _) as [[cf' [|]]|]; [done| |done].
  cbn [mbind option_bind]. apply IH. intros k Hk. unfold rndTail. apply Hsame. lia.
Qed.

(** X16. [Insert] does bounded work: the eviction loop runs at most
    [maxCuckooCount] = 500 times, so on any filter the result of [Insert]
    depends on the first 501 random draws only. *)
Theorem Insert_uses_501_draws rnd rnd' cf data :
  (∀ k, k ≤ maxCuckooCount → rnd k = rnd' k) →
  Filter.Insert rnd cf data = Filter.Insert rnd' cf data.
Proof.
  intros Hsame. unfold Filter.Insert.
  destruct (getIndexAndFingerprint data (BucketPow cf)) as [i1 fp].
  destruct (Filter.insert cf fp i1) as [[cf1 [|]]|]; [done| |done].
  cbn [mbind option_bind].
  destruct (Filter.insert cf1 fp _) as [[cf2 [|]]|]; [done| |done].
  cbn [mbind option_bind]. unfold Filter.reinsert.
  rewrite <- (Hsame 0) by lia.
  rewrite (reinsertLoop_draws maxCuckooCount (rndTail rnd) (rndTail rnd')); [done|].
  intros k Hk. unfold rndTail. apply Hsame. lia.
Qed.

End Bounded.

Lemma Insert_uses_501_draws_witness :
  Filter.Insert (H := sampleHash) churnDraws fullFilter [x09]
  = Filter.Insert (H := sampleHash) (λ k, if decide (k ≤ 500) then churnDraws k else 7)
      fullFilter [x09].
Proof.
  apply (Insert_uses_501_draws (H := sampleHash)).
  intros k Hk. unfold maxCuckooCount in Hk. by rewrite decide_True by exact Hk.
Defined.

Section DeleteEffect.
Context {H : HashLayer} {Hspec : HashLayerSpec H}.

(** X17. What a [Delete] changes.  When [Delete] returns true on a
    reachable filter, the fingerprints stored before are those stored after
    plus the fingerprint of the deleted input; no input is found after the
    call that was not found before; and every input that does not share
    the fingerprint and candidate buckets of the deleted input gets from
    [Lookup] the answer it got before. *)
Theorem Delete_removes_one_fingerprint cf data cf' :
  reachable cf → Filter.Delete cf data = Some (cf', true) →
  storedFps (Buckets cf)
  ≡ₚ (getIndexAndFingerprint data (BucketPow cf)).2 :: storedFps (Buckets cf') ∧
  (∀ data0, Filter.Lookup cf' data0 = Some true → Filter.Lookup cf data0 = Some true) ∧
  (∀ data0, ¬ sameHome (BucketPow cf) data0 data →
     Filter.Lookup cf' data0 = Filter.Lookup cf data0).
Proof.
  intros Hreach Hrun. pose proof (reachable_inv cf Hreach) as Hinv.
  destruct (Delete_spec cf data Hinv)
    as [(i & j & cf'' & Hrun' & _ & _ & Hslot & Hbs & Hbp & _ & _ & Hinv')|(Hrun' & _)];
    rewrite Hrun in Hrun'; simplify_eq.
  assert (∀ data0, storedIn cf'' data0 → storedIn cf data0) as Hback.
  { intros data0 Hst. apply (storedIn_same_pow cf'' cf data0 (eq_sym Hbp)).
    pose proof (proj1 (storedIn_unfold cf'' data0) Hst) as Hst'.
    clear Hst. rename Hst' into Hst. rewrite Hbs in Hst.
    assert (∀ a, holds (writeSlot (Buckets cf) (Z.to_nat i) j nullFp) a
                   (getIndexAndFingerprint data0 (BucketPow cf'')).2 →
                 holds (Buckets cf) a (getIndexAndFingerprint data0 (BucketPow cf'')).2)
      as Hh.
    { intros a [j0 Hj0]. exists j0. rewrite slot_writeSlot in Hj0.
      destruct (decide (Z.to_nat a = Z.to_nat i ∧ j0 = j)) as [[Ha ->]|Hne]; [|done].
      rewrite Hslot in Hj0. simpl in Hj0. simplify_eq.
      by destruct (hashFingerprint_nonnull data0). }
    destruct Hst as [Hst|Hst]; [left|right]; by apply Hh. }
  split; [|split].
  - pose proof (storedFps_writeSlot _ _ _ _ nullFp Hslot) as Hw.
    rewrite filter_single_null, filter_single_nonnull in Hw
      by apply hashFingerprint_nonnull.
    rewrite <- Hbs in Hw. simpl in Hw. symmetry. exact Hw.
  - intros data0 Hl. apply Lookup_true; [done|]. apply Hback.
    destruct (Lookup_spec cf'' data0 Hinv') as (found & Hl' & Hiff).
    rewrite Hl' in Hl. apply Hiff. by simplify_eq.
  - intros data0 Hno.
    destruct (Lookup_spec cf data0 Hinv) as (found & Hl & Hiff).
    rewrite Hl. destruct found.
    + apply Lookup_true; [done|].
      apply (Delete_keeps cf data0 data cf'' true); [done| |done|done].
      by apply Hiff.
    + apply Lookup_false; [done|]. intros Hst. apply Hback in Hst.
      apply Hiff in Hst. done.
Qed.

End DeleteEffect.

Lemma Delete_removes_one_fingerprint_witness :
  storedFps (Buckets fullFilter)
  ≡ₚ (getIndexAndFingerprint (H := sampleHash) [x06] (BucketPow fullFilter)).2
     :: storedFps [[x05; x00; x07; x08]].
Proof.
  destruct (Delete_removes_one_fingerprint (H := sampleHash) (Hspec := sampleHash_spec)
              fullFilter [x06]
              {| Buckets := [[x05; x00; x07; x08]]; Count := 3; BucketPow := 0 |})
    as (Hperm & _ & _).
  - apply fullFilter_reachable.
  - vm_compute. reflexivity.
  - exact Hperm.
Defined.


